(** * Matrix-free Neo-Hooke tangent operator: a shallow embedding

    This development embeds [include/mf_nh_operator.h] (class
    [NeoHookOperator]) and proves properties of its operator action, of the
    Jacobi preconditioner and of the diagonal extraction.

    Conventions.
    - [number] is IEEE binary64.  The header is a template in [number], but
      [compute_diagonal] hands a [Vector<number>] to a [Vector<double> &]
      parameter of [local_diagonal_cell], so only [number = double]
      instantiates.
    - deal.II is an external library.  Its evaluation machinery
      ([MatrixFree], [FEEvaluation]) enters through the fields of the record
      [MatrixFree]; its tensor algebra, the kinematics helpers and the
      repository's [material.h] enter through the class [Physics] and the
      record [Material].  Nothing is assumed about them; where a theorem
      rests on a contract of the library, the contract is its hypothesis.
    - deal.II's [Assert] is modelled as in a debug build: a failed assertion
      ends the call with the named exception.  Accesses that a debug build
      guards ([Vector::operator()], [Vector::scale]) fail with the guarding
      exception, and using an unbound [shared_ptr] or the unset displacement
      pointer fails with [InvalidPointer]. *)

From Stdlib Require Import Floats.
From stdpp Require Import base option list gmap.

(** ** Numbers and global vectors *)

Abbreviation number := float (only parsing).

(** [std::abs(x) > y] on doubles. *)
Definition abs_gt (x y : number) : bool := PrimFloat.ltb y (PrimFloat.abs x).

(** [1e-10] as the nearest binary64 value. *)
Definition JxW_threshold : number := 0x1.b7cdfd9d7bdbbp-34%float.

(** [std::numeric_limits<double>::epsilon()], that is 2^-52. *)
Definition numeric_limits_epsilon : number := 0x1p-52%float.

(** [Vector<double>]. *)
Abbreviation Vector := (list number) (only parsing).

(** ** Failures *)

Inductive ExceptionBase : Set :=
| ExcNotInitialized
| ExcNotImplemented
| ExcInternalError
| ExcIndexRange
| ExcDimensionMismatch
| InvalidPointer.

Inductive outcome (A : Type) : Type :=
| Ok (a : A)
| Throw (e : ExceptionBase).
Arguments Ok {A} a.
Arguments Throw {A} e.

#[global] Instance outcome_ret : MRet outcome := fun A a => Ok a.
#[global] Instance outcome_bind : MBind outcome := fun A B f m =>
  match m with
  | Ok a => f a
  | Throw e => Throw e
  end.

(** [Assert (c, e)]. *)
Definition Assert (c : bool) (e : ExceptionBase) : outcome unit :=
  if c then Ok tt else Throw e.

(** Dereferencing a [shared_ptr] or a raw pointer. *)
Definition deref {A : Type} (p : option A) : outcome A :=
  match p with
  | Some a => Ok a
  | None => Throw InvalidPointer
  end.

(** A loop whose body can fail: the first failure ends it. *)
Fixpoint for_each {A S : Type} (body : S → A → outcome S) (l : list A) (s : S)
  : outcome S :=
  match l with
  | [] => Ok s
  | x :: l' => s' ← body s x; for_each body l' s'
  end.

(** [v(i)] of [Vector], read and write. *)
Definition Vector_at (v : Vector) (i : nat) : outcome number :=
  match v !! i with
  | Some x => Ok x
  | None => Throw ExcIndexRange
  end.

Definition Vector_set (v : Vector) (i : nat) (x : number) : outcome Vector :=
  if decide (i < length v) then Ok (<[i := x]> v) else Throw ExcIndexRange.

(** [v = s]: every entry becomes [s], the size stays. *)
Definition Vector_assign_scalar (v : Vector) (s : number) : Vector :=
  replicate (length v) s.

(** [v *= s]. *)
Definition Vector_times_eq (v : Vector) (s : number) : Vector :=
  (λ x, PrimFloat.mul x s) <$> v.

(** [v.scale (factors)]: entry-wise product, sizes must agree. *)
Definition Vector_scale (v factors : Vector) : outcome Vector :=
  if decide (length v = length factors)
  then Ok (zip_with PrimFloat.mul v factors)
  else Throw ExcDimensionMismatch.

(** [DiagonalMatrix::vmult]: [dst = src; dst.scale (diagonal)]. *)
Definition DiagonalMatrix_vmult (diagonal : Vector) (dst src : Vector)
  : outcome Vector :=
  let dst := src in
  Vector_scale dst diagonal.

(** ** SIMD lanes and tensors *)

(** [VectorizedArray<number>]: [n_array_elements] lanes. *)
Abbreviation VectorizedArray := (list number) (only parsing).

(** [Tensor<2,dim,VectorizedArray<number>>] and its symmetric sibling, as
    the list of their independent components. *)
Abbreviation Tensor2 := (list VectorizedArray) (only parsing).
Abbreviation SymmetricTensor2 := (list VectorizedArray) (only parsing).

(** [a[i]]. *)
Definition lane (a : VectorizedArray) (i : nat) : number :=
  default 0%float (a !! i).

Definition VectorizedArray_add (a b : VectorizedArray) : VectorizedArray :=
  zip_with PrimFloat.add a b.

Definition VectorizedArray_mul (a b : VectorizedArray) : VectorizedArray :=
  zip_with PrimFloat.mul a b.

(** [t * s] for a tensor [t] and a lane vector [s]: every component is
    multiplied lane by lane. *)
Definition Tensor_times (t : list VectorizedArray) (s : VectorizedArray)
  : list VectorizedArray :=
  (λ c, VectorizedArray_mul c s) <$> t.

(** What the kernel takes from deal.II's tensor algebra and
    [Physics::Elasticity::Kinematics], from the lane width of the build, and
    from the repository's [egeo_grad], which is not among the sources at
    hand. *)
Class Physics : Type := {
  n_array_elements : nat;
  Kinematics_F : Tensor2 → Tensor2;
  determinant : Tensor2 → VectorizedArray;
  Kinematics_F_iso : Tensor2 → Tensor2;
  Kinematics_b : Tensor2 → SymmetricTensor2;
  Tensor_of_symmetric : SymmetricTensor2 → Tensor2;
  egeo_grad : Tensor2 → Tensor2 → Tensor2
}.

(** [Material_Compressible_Neo_Hook_One_Field] of [material.h], as far as
    the operator uses it. *)
Record Material : Type := {
  get_tau : VectorizedArray → SymmetricTensor2 → SymmetricTensor2;
  act_Jc : VectorizedArray → SymmetricTensor2 → SymmetricTensor2
           → SymmetricTensor2
}.

(** ** The evaluation context *)

(** [MatrixFree<dim,number>] with the cell kernels that [FEEvaluation] runs
    over it.  [gather] is [read_dof_values], [gather_plain] is
    [read_dof_values_plain], [eval_gradients] is [evaluate (false,true,false)],
    [gradient_at] is [get_gradient], [symmetric_gradient_at] is
    [get_symmetric_gradient], [quad_weight] is [JxW], [store_gradient] is
    [submit_gradient], [store_symmetric_gradient] is
    [submit_symmetric_gradient], [integrate_gradients] is
    [integrate (false,true)] and [scatter_add] is
    [distribute_local_to_global]; the first argument is the cell batch. *)
Record MatrixFree : Type := {
  n_macro_cells : nat;
  n_q_points : nat;
  dofs_per_component : nat;
  n_components : nat;
  get_constrained_dofs : list nat;
  dof_vector_size : nat;
  gather : nat → Vector → list VectorizedArray;
  gather_plain : nat → Vector → list VectorizedArray;
  eval_gradients : nat → list VectorizedArray → list Tensor2;
  gradient_at : nat → list Tensor2 → nat → Tensor2;
  symmetric_gradient_at : nat → list Tensor2 → nat → SymmetricTensor2;
  quad_weight : nat → nat → VectorizedArray;
  store_gradient : nat → Tensor2 → nat → list Tensor2 → list Tensor2;
  store_symmetric_gradient :
    nat → SymmetricTensor2 → nat → list Tensor2 → list Tensor2;
  integrate_gradients : nat → list Tensor2 → list VectorizedArray;
  scatter_add : nat → list VectorizedArray → Vector → Vector
}.

(** [data.initialize_dof_vector (v)]. *)
Definition initialize_dof_vector (data : MatrixFree) : Vector :=
  replicate (dof_vector_size data) 0%float.

(** [FEEvaluation<dim,fe_degree,n_q_points_1d,dim,number>]. *)
Record FEEvaluation : Type := {
  matrix_info : MatrixFree;
  cell : nat;
  values_dofs : list VectorizedArray;
  gradients_quad : list Tensor2
}.

Definition FEEvaluation_ctor (data : MatrixFree) : FEEvaluation :=
  {| matrix_info := data; cell := 0; values_dofs := []; gradients_quad := [] |}.

Definition reinit (c : nat) (phi : FEEvaluation) : FEEvaluation :=
  {| matrix_info := matrix_info phi; cell := c;
     values_dofs := values_dofs phi; gradients_quad := gradients_quad phi |}.

Definition set_values_dofs (vs : list VectorizedArray) (phi : FEEvaluation)
  : FEEvaluation :=
  {| matrix_info := matrix_info phi; cell := cell phi;
     values_dofs := vs; gradients_quad := gradients_quad phi |}.

Definition set_gradients_quad (gs : list Tensor2) (phi : FEEvaluation)
  : FEEvaluation :=
  {| matrix_info := matrix_info phi; cell := cell phi;
     values_dofs := values_dofs phi; gradients_quad := gs |}.

Definition read_dof_values (src : Vector) (phi : FEEvaluation) : FEEvaluation :=
  set_values_dofs (gather (matrix_info phi) (cell phi) src) phi.

Definition read_dof_values_plain (src : Vector) (phi : FEEvaluation)
  : FEEvaluation :=
  set_values_dofs (gather_plain (matrix_info phi) (cell phi) src) phi.

Definition evaluate (phi : FEEvaluation) : FEEvaluation :=
  set_gradients_quad
    (eval_gradients (matrix_info phi) (cell phi) (values_dofs phi)) phi.

Definition get_gradient (phi : FEEvaluation) (q : nat) : Tensor2 :=
  gradient_at (matrix_info phi) (cell phi) (gradients_quad phi) q.

Definition get_symmetric_gradient (phi : FEEvaluation) (q : nat)
  : SymmetricTensor2 :=
  symmetric_gradient_at (matrix_info phi) (cell phi) (gradients_quad phi) q.

Definition JxW (phi : FEEvaluation) (q : nat) : VectorizedArray :=
  quad_weight (matrix_info phi) (cell phi) q.

Definition submit_gradient (t : Tensor2) (q : nat) (phi : FEEvaluation)
  : FEEvaluation :=
  set_gradients_quad
    (store_gradient (matrix_info phi) (cell phi) t q (gradients_quad phi)) phi.

Definition submit_symmetric_gradient (t : SymmetricTensor2) (q : nat)
    (phi : FEEvaluation) : FEEvaluation :=
  set_gradients_quad
    (store_symmetric_gradient (matrix_info phi) (cell phi) t q
       (gradients_quad phi)) phi.

Definition integrate (phi : FEEvaluation) : FEEvaluation :=
  set_values_dofs
    (integrate_gradients (matrix_info phi) (cell phi) (gradients_quad phi)) phi.

Definition distribute_local_to_global (phi : FEEvaluation) (dst : Vector)
  : Vector :=
  scatter_add (matrix_info phi) (cell phi) (values_dofs phi) dst.

(** [phi.begin_dof_values()[i]], read and write. *)
Definition dof_value (phi : FEEvaluation) (i : nat) : VectorizedArray :=
  default [] (values_dofs phi !! i).

Definition set_dof_value (i : nat) (v : VectorizedArray) (phi : FEEvaluation)
  : FEEvaluation :=
  set_values_dofs (<[i := v]> (values_dofs phi)) phi.

(** ** The operator *)

(** The members of [NeoHookOperator].  [displacement] is a raw pointer to a
    vector the caller owns: an address into the caller's memory, or [None]
    while it has not been set. *)
Record NeoHookOperator : Type := {
  data_current : option MatrixFree;
  data_reference : option MatrixFree;
  displacement : option nat;
  material : option Material;
  inverse_diagonal_entries : option Vector;
  diagonal_entries : option Vector;
  diagonal_is_available : bool
}.

(** The caller's vectors, by address. *)
Abbreviation memory := (gmap nat Vector) (only parsing).

Definition NeoHookOperator_ctor : NeoHookOperator :=
  {| data_current := None; data_reference := None; displacement := None;
     material := None; inverse_diagonal_entries := None;
     diagonal_entries := None; diagonal_is_available := false |}.

Definition clear (op : NeoHookOperator) : NeoHookOperator :=
  {| data_current := None;
     data_reference := None;
     displacement := displacement op;
     material := material op;
     inverse_diagonal_entries := None;
     diagonal_entries := None;
     diagonal_is_available := false |}.

Definition initialize (data_current_ data_reference_ : MatrixFree)
    (displacement_ : nat) (op : NeoHookOperator) : NeoHookOperator :=
  {| data_current := Some data_current_;
     data_reference := Some data_reference_;
     displacement := Some displacement_;
     material := material op;
     inverse_diagonal_entries := inverse_diagonal_entries op;
     diagonal_entries := diagonal_entries op;
     diagonal_is_available := diagonal_is_available op |}.

Definition set_material (material_ : Material) (op : NeoHookOperator)
  : NeoHookOperator :=
  {| data_current := data_current op;
     data_reference := data_reference op;
     displacement := displacement op;
     material := Some material_;
     inverse_diagonal_entries := inverse_diagonal_entries op;
     diagonal_entries := diagonal_entries op;
     diagonal_is_available := diagonal_is_available op |}.

(** [*displacement]. *)
Definition displacement_vector (op : NeoHookOperator) (mem : memory)
  : outcome Vector :=
  a ← deref (displacement op); deref (mem !! a).

Definition precondition_Jacobi (op : NeoHookOperator)
    (dst src : Vector) (omega : number) : outcome Vector :=
  match inverse_diagonal_entries op with
  | Some inverse_diagonal =>
      _ ← Assert (bool_decide (0 < length inverse_diagonal)) ExcNotInitialized;
      dst ← DiagonalMatrix_vmult inverse_diagonal dst src;
      Ok (Vector_times_eq dst omega)
  | None => Throw ExcNotInitialized
  end.

Definition el (op : NeoHookOperator) (row col : nat) : outcome number :=
  _ ← Assert (bool_decide (row = col)) ExcNotImplemented;
  _ ← Assert (diagonal_is_available op) ExcNotInitialized;
  diagonal_vector ← deref (diagonal_entries op);
  Vector_at diagonal_vector row.

Section Kernel.
Context `{physics : Physics}.

(** [VectorizedArray<number>()] and [= s]: all lanes alike. *)
Definition make_vectorized_array (s : number) : VectorizedArray :=
  replicate n_array_elements s.

(** One round of the lane loop of [do_operation_on_cell]:
    [if (std::abs(JxW_current[i])>1e-10) JxW_scale[i] *= 1./JxW_current[i];] *)
Definition JxW_scale_lane (JxW_current : VectorizedArray)
    (JxW_scale : VectorizedArray) (i : nat) : VectorizedArray :=
  if abs_gt (lane JxW_current i) JxW_threshold
  then <[i := PrimFloat.mul (lane JxW_scale i)
                (PrimFloat.div 1%float (lane JxW_current i))]> JxW_scale
  else JxW_scale.

(** [JxW_scale] after the lane loop, started from the reference weight. *)
Definition JxW_scale (JxW_reference JxW_current : VectorizedArray)
  : VectorizedArray :=
  foldl (JxW_scale_lane JxW_current) JxW_reference (seq 0 n_array_elements).

(** The evaluators [phi_current], [phi_current_s], [phi_reference]. *)
Record evaluators : Type := {
  phi_current : FEEvaluation;
  phi_current_s : FEEvaluation;
  phi_reference : FEEvaluation
}.

(** The two tensors submitted at a quadrature point: the material tangent
    part, for [phi_current_s], and the geometric stress part, for
    [phi_current]. *)
Definition contributions_at (mat : Material) (phis : evaluators) (q : nat)
  : SymmetricTensor2 * Tensor2 :=
  let grad_u := get_gradient (phi_reference phis) q in
  let F := Kinematics_F grad_u in
  let det_F := determinant F in
  let F_bar := Kinematics_F_iso F in
  let b_bar := Kinematics_b F_bar in
  let grad_Nx_v := get_gradient (phi_current phis) q in
  let symm_grad_Nx_v := get_symmetric_gradient (phi_current phis) q in
  let tau := get_tau mat det_F b_bar in
  let tau_ns := Tensor_of_symmetric tau in
  let jc_part := act_Jc mat det_F b_bar symm_grad_Nx_v in
  let JxW_current := JxW (phi_current phis) q in
  let JxW_scale := JxW_scale (JxW (phi_reference phis) q) JxW_current in
  let geo := egeo_grad grad_Nx_v tau_ns in
  (Tensor_times jc_part JxW_scale, Tensor_times geo JxW_scale).

(** The body of the quadrature loop. *)
Definition quadrature_point (material : option Material)
    (phis : evaluators) (q : nat) : outcome evaluators :=
  mat ← deref material;
  let '(material_part, geometric_part) := contributions_at mat phis q in
  let phi_current_s' :=
    submit_symmetric_gradient material_part q (phi_current_s phis) in
  let phi_current' := submit_gradient geometric_part q (phi_current phis) in
  Ok {| phi_current := phi_current'; phi_current_s := phi_current_s';
        phi_reference := phi_reference phis |}.

Definition do_operation_on_cell (op : NeoHookOperator) (phis : evaluators)
  : outcome evaluators :=
  let phis := {| phi_current := evaluate (phi_current phis);
                 phi_current_s := evaluate (phi_current_s phis);
                 phi_reference := evaluate (phi_reference phis) |} in
  phis ← for_each (quadrature_point (material op))
           (seq 0 (n_q_points (matrix_info (phi_current phis)))) phis;
  Ok {| phi_current := integrate (phi_current phis);
        phi_current_s := integrate (phi_current_s phis);
        phi_reference := phi_reference phis |}.

(** The body of the cell loop of [local_apply_cell]. *)
Definition apply_on_cell (op : NeoHookOperator) (mem : memory) (src : Vector)
    (st : Vector * evaluators) (c : nat) : outcome (Vector * evaluators) :=
  let '(dst, phis) := st in
  let phis :=
    {| phi_current := reinit c (phi_current phis);
       phi_current_s := reinit c (phi_current_s phis);
       phi_reference := reinit c (phi_reference phis) |} in
  u ← displacement_vector op mem;
  let phis :=
    {| phi_current := read_dof_values src (phi_current phis);
       phi_current_s := read_dof_values src (phi_current_s phis);
       phi_reference := read_dof_values_plain u (phi_reference phis) |} in
  phis ← do_operation_on_cell op phis;
  let dst := distribute_local_to_global (phi_current phis) dst in
  let dst := distribute_local_to_global (phi_current_s phis) dst in
  Ok (dst, phis).

(** The evaluators as [local_apply_cell] creates them. *)
Definition fresh_evaluators (cur ref : MatrixFree) : evaluators :=
  {| phi_current := FEEvaluation_ctor cur;
     phi_current_s := FEEvaluation_ctor cur;
     phi_reference := FEEvaluation_ctor ref |}.

Definition local_apply_cell (op : NeoHookOperator) (mem : memory)
    (dst src : Vector) (cell_range : nat * nat) : outcome Vector :=
  cur ← deref (data_current op);
  ref ← deref (data_reference op);
  let phis := fresh_evaluators cur ref in
  _ ← Assert (bool_decide (n_q_points (matrix_info (phi_current phis))
                           = n_q_points (matrix_info (phi_reference phis))))
        ExcInternalError;
  st ← for_each (apply_on_cell op mem src)
         (seq cell_range.1 (cell_range.2 - cell_range.1)) (dst, phis);
  Ok st.1.

(** [dst(k) += src(k)], the body of the constraint loop of [vmult_add]. *)
Definition add_constrained_entry (src : Vector) (dst : Vector) (k : nat)
  : outcome Vector :=
  d ← Vector_at dst k;
  s ← Vector_at src k;
  Vector_set dst k (PrimFloat.add d s).

Definition vmult_add (op : NeoHookOperator) (mem : memory) (dst src : Vector)
  : outcome Vector :=
  cur ← deref (data_current op);
  ref ← deref (data_reference op);
  _ ← Assert (bool_decide (n_macro_cells cur = n_macro_cells ref))
        ExcInternalError;
  dst ← local_apply_cell op mem dst src (0, n_macro_cells cur);
  let constrained_dofs := get_constrained_dofs cur in
  for_each (add_constrained_entry src) constrained_dofs dst.

Definition vmult (op : NeoHookOperator) (mem : memory) (dst src : Vector)
  : outcome Vector :=
  let dst := Vector_assign_scalar dst 0%float in
  vmult_add op mem dst src.

Definition Tvmult (op : NeoHookOperator) (mem : memory) (dst src : Vector)
  : outcome Vector :=
  let dst := Vector_assign_scalar dst 0%float in
  vmult_add op mem dst src.

Definition Tvmult_add (op : NeoHookOperator) (mem : memory) (dst src : Vector)
  : outcome Vector :=
  vmult_add op mem dst src.

(** The local indices [i + ic * dofs_per_component] in the order of the
    nested loops over [i < dofs_per_component] and [ic < n_components]. *)
Definition local_indices (data : MatrixFree) : list nat :=
  i ← seq 0 (dofs_per_component data);
  ic ← seq 0 (n_components data);
  [i + ic * dofs_per_component data].

(** The state of the probing loop: the evaluators and
    [local_diagonal_vector]. *)
Definition probe_state : Type := evaluators * list VectorizedArray.

(** One probe of [local_diagonal_cell]: the body of the loops over [i] and
    [ic], at [ind_i]. *)
Definition probe (op : NeoHookOperator) (st : probe_state) (ind_i : nat)
  : outcome probe_state :=
  let '(phis, local_diagonal_vector) := st in
  let data := matrix_info (phi_current phis) in
  let phis :=
    foldl (λ phis ind_j,
             {| phi_current :=
                  set_dof_value ind_j (make_vectorized_array 0%float)
                    (phi_current phis);
                phi_current_s :=
                  set_dof_value ind_j (make_vectorized_array 0%float)
                    (phi_current_s phis);
                phi_reference := phi_reference phis |})
      phis (local_indices data) in
  let phis :=
    {| phi_current :=
         set_dof_value ind_i (make_vectorized_array 1%float) (phi_current phis);
       phi_current_s :=
         set_dof_value ind_i (make_vectorized_array 1%float)
           (phi_current_s phis);
       phi_reference := phi_reference phis |} in
  phis ← do_operation_on_cell op phis;
  Ok (phis,
      <[ind_i := VectorizedArray_add (dof_value (phi_current phis) ind_i)
                   (dof_value (phi_current_s phis) ind_i)]>
        local_diagonal_vector).

(** The body of the cell loop of [local_diagonal_cell]. *)
Definition diagonal_on_cell (op : NeoHookOperator) (mem : memory)
    (st : Vector * evaluators) (c : nat) : outcome (Vector * evaluators) :=
  let '(dst, phis) := st in
  let phis :=
    {| phi_current := reinit c (phi_current phis);
       phi_current_s := reinit c (phi_current_s phis);
       phi_reference := reinit c (phi_reference phis) |} in
  u ← displacement_vector op mem;
  let phis :=
    {| phi_current := read_dof_values u (phi_current phis);
       phi_current_s := read_dof_values u (phi_current_s phis);
       phi_reference := read_dof_values_plain u (phi_reference phis) |} in
  let data := matrix_info (phi_current phis) in
  let local_diagonal_vector :=
    replicate (dofs_per_component data * n_components data)
      (make_vectorized_array 0%float) in
  '(phis, local_diagonal_vector) ←
    for_each (probe op) (local_indices data) (phis, local_diagonal_vector);
  let phi_current' :=
    foldl (λ phi ind_i,
             set_dof_value ind_i (default [] (local_diagonal_vector !! ind_i))
               phi)
      (phi_current phis) (local_indices data) in
  let dst := distribute_local_to_global phi_current' dst in
  Ok (dst, {| phi_current := phi_current';
              phi_current_s := phi_current_s phis;
              phi_reference := phi_reference phis |}).

Definition local_diagonal_cell (op : NeoHookOperator) (mem : memory)
    (dst : Vector) (cell_range : nat * nat) : outcome Vector :=
  cur ← deref (data_current op);
  ref ← deref (data_reference op);
  let phis := fresh_evaluators cur ref in
  st ← for_each (diagonal_on_cell op mem)
         (seq cell_range.1 (cell_range.2 - cell_range.1)) (dst, phis);
  Ok st.1.

(** [diagonal_vector(k) = 1.], the body of the loop that sets the
    constrained entries to one. *)
Definition set_constrained_entry_to_one (diagonal_vector : Vector) (k : nat)
  : outcome Vector :=
  Vector_set diagonal_vector k 1%float.

(** The body of the inversion loop of [compute_diagonal]. *)
Definition invert_entry (inverse_diagonal_vector : Vector) (i : nat) : Vector :=
  let x := default 0%float (inverse_diagonal_vector !! i) in
  if abs_gt x (PrimFloat.sqrt numeric_limits_epsilon)
  then <[i := PrimFloat.div 1%float x]> inverse_diagonal_vector
  else <[i := 1%float]> inverse_diagonal_vector.

(** [inverse_diagonal_vector = diagonal_vector;] and the inversion loop. *)
Definition invert_diagonal (diagonal_vector : Vector) : Vector :=
  let inverse_diagonal_vector := diagonal_vector in
  foldl invert_entry inverse_diagonal_vector
    (seq 0 (length inverse_diagonal_vector)).

(** The operator once both [DiagonalMatrix] members hold their vectors;
    the flag is as before. *)
Definition with_diagonals (inverse_diagonal_vector diagonal_vector : Vector)
    (op : NeoHookOperator) : NeoHookOperator :=
  {| data_current := data_current op;
     data_reference := data_reference op;
     displacement := displacement op;
     material := material op;
     inverse_diagonal_entries := Some inverse_diagonal_vector;
     diagonal_entries := Some diagonal_vector;
     diagonal_is_available := diagonal_is_available op |}.

(** [diagonal_is_available = true;] *)
Definition mark_diagonal_available (op : NeoHookOperator) : NeoHookOperator :=
  {| data_current := data_current op;
     data_reference := data_reference op;
     displacement := displacement op;
     material := material op;
     inverse_diagonal_entries := inverse_diagonal_entries op;
     diagonal_entries := diagonal_entries op;
     diagonal_is_available := true |}.

Definition compute_diagonal (op : NeoHookOperator) (mem : memory)
  : outcome NeoHookOperator :=
  let op := with_diagonals [] [] op in
  cur ← deref (data_current op);
  let inverse_diagonal_vector := initialize_dof_vector cur in
  let diagonal_vector := initialize_dof_vector cur in
  diagonal_vector ←
    local_diagonal_cell op mem diagonal_vector (0, n_macro_cells cur);
  diagonal_vector ←
    for_each set_constrained_entry_to_one (get_constrained_dofs cur)
      diagonal_vector;
  let inverse_diagonal_vector := invert_diagonal diagonal_vector in
  let op := with_diagonals inverse_diagonal_vector diagonal_vector op in
  Ok (mark_diagonal_available op).

(** The operator just before the flag is set, given the diagonal after the
    fix-up of the constrained entries. *)
Definition with_computed_diagonal (diagonal_vector : Vector)
    (op : NeoHookOperator) : NeoHookOperator :=
  with_diagonals (invert_diagonal diagonal_vector) diagonal_vector
    (with_diagonals [] [] op).

(** The four entry points of the operator action. *)
Definition operator_actions
  : list (NeoHookOperator → memory → Vector → Vector → outcome Vector) :=
  [vmult; Tvmult; vmult_add; Tvmult_add].

End Kernel.

(** ** A bar of two linear elements

    A concrete context to run the operator on: [dim = 1], two lanes, one
    cell batch holding the elements [0-1] and [1-2] of a bar with the nodes
    [0], [1], [2], one quadrature point of weight [jxw] per element, and the
    left end, node [0], constrained.  Lane [l] of local node [j] is global
    node [l + j]. *)

Definition line_physics : Physics :=
  {| n_array_elements := 2;
     Kinematics_F := λ grad_u, VectorizedArray_add [1; 1]%float <$> grad_u;
     determinant := λ F, default [] (F !! 0);
     Kinematics_F_iso := λ F,
       (λ c, zip_with PrimFloat.div c (default [] (F !! 0))) <$> F;
     Kinematics_b := λ F, (λ c, VectorizedArray_mul c c) <$> F;
     Tensor_of_symmetric := λ t, t;
     egeo_grad := λ grad tau, zip_with VectorizedArray_mul grad tau |}.

(** A material whose stress is [b_bar] and whose tangent contraction returns
    the direction. *)
Definition unit_material : Material :=
  {| get_tau := λ det_F b_bar, b_bar;
     act_Jc := λ det_F b_bar symm_grad, symm_grad |}.

Definition bar_nodes : list (nat * nat) := [(0, 0); (0, 1); (1, 0); (1, 1)].

(** Reading the local values of the bar; with [resolve] the constrained
    nodes read as zero. *)
Definition bar_gather (constrained : list nat) (resolve : bool)
    (v : Vector) : list VectorizedArray :=
  (λ j, (λ l, if resolve && bool_decide (l + j ∈ constrained)
              then 0%float else default 0%float (v !! (l + j)))
          <$> seq 0 2) <$> seq 0 2.

(** Adding the local values of the bar into a global vector, leaving out
    the nodes in [skipped]. *)
Definition bar_scatter (skipped : list nat) (vals : list VectorizedArray)
    (dst : Vector) : Vector :=
  foldl (λ d '(j, l),
           if bool_decide (l + j ∈ skipped) then d
           else <[l + j := PrimFloat.add (default 0%float (d !! (l + j)))
                             (lane (default [] (vals !! j)) l)]> d)
    dst bar_nodes.

(** The bar as an evaluation context.  deal.II leaves the constrained nodes
    out of the scatter, which is [skipped = constrained]. *)
Definition bar (cells : nat) (jxw : VectorizedArray)
    (constrained skipped : list nat) : MatrixFree :=
  {| n_macro_cells := cells;
     n_q_points := 1;
     dofs_per_component := 2;
     n_components := 1;
     get_constrained_dofs := constrained;
     dof_vector_size := 3;
     gather := λ _ v, bar_gather constrained true v;
     gather_plain := λ _ v, bar_gather constrained false v;
     eval_gradients := λ _ vals,
       [[zip_with PrimFloat.sub (default [] (vals !! 1))
           (default [] (vals !! 0))]];
     gradient_at := λ _ buf q, default [] (buf !! q);
     symmetric_gradient_at := λ _ buf q, default [] (buf !! q);
     quad_weight := λ _ _, jxw;
     store_gradient := λ _ t q buf, <[q := t]> buf;
     store_symmetric_gradient := λ _ t q buf, <[q := t]> buf;
     integrate_gradients := λ _ buf,
       let g := default [] (default [] (buf !! 0) !! 0) in
       [PrimFloat.opp <$> g; g];
     scatter_add := λ _ vals dst, bar_scatter skipped vals dst |}.

(** A context without cells and without degrees of freedom. *)
Definition empty_context : MatrixFree :=
  {| n_macro_cells := 0;
     n_q_points := 1;
     dofs_per_component := 2;
     n_components := 1;
     get_constrained_dofs := [];
     dof_vector_size := 0;
     gather := λ _ _, [];
     gather_plain := λ _ _, [];
     eval_gradients := λ _ _, [];
     gradient_at := λ _ _ _, [];
     symmetric_gradient_at := λ _ _ _, [];
     quad_weight := λ _ _, [];
     store_gradient := λ _ _ _ buf, buf;
     store_symmetric_gradient := λ _ _ _ buf, buf;
     integrate_gradients := λ _ _, [];
     scatter_add := λ _ _ dst, dst |}.

(** The operator bound to the contexts [cur] and [ref], the displacement at
    address [0], and [unit_material]. *)
Definition bound_operator (cur ref : MatrixFree) : NeoHookOperator :=
  set_material unit_material (initialize cur ref 0 NeoHookOperator_ctor).

(** The caller's memory with the displacement [u] at address [0]. *)
Definition memory_with (u : Vector) : memory := {[ 0 := u ]}.

(** The bar with unit weights, its left end constrained and left out of
    the scatter. *)
Definition unit_bar : MatrixFree := bar 1 [1; 1]%float [0] [0].

(** The same bar when the scatter does not leave the constrained node out. *)
Definition unit_bar_full_scatter : MatrixFree := bar 1 [1; 1]%float [0] [].

(** The unit bar with two quadrature points per element. *)
Definition two_point_bar : MatrixFree :=
  {| n_macro_cells := n_macro_cells unit_bar;
     n_q_points := 2;
     dofs_per_component := dofs_per_component unit_bar;
     n_components := n_components unit_bar;
     get_constrained_dofs := get_constrained_dofs unit_bar;
     dof_vector_size := dof_vector_size unit_bar;
     gather := gather unit_bar;
     gather_plain := gather_plain unit_bar;
     eval_gradients := eval_gradients unit_bar;
     gradient_at := gradient_at unit_bar;
     symmetric_gradient_at := symmetric_gradient_at unit_bar;
     quad_weight := quad_weight unit_bar;
     store_gradient := store_gradient unit_bar;
     store_symmetric_gradient := store_symmetric_gradient unit_bar;
     integrate_gradients := integrate_gradients unit_bar;
     scatter_add := scatter_add unit_bar |}.

(** The evaluators of the bar after [reinit (0)] when the reference
    configuration has the weights [2] and [49] and the current
    configuration the weights [0] and [49]. *)
Definition degenerate_bar_evaluators : evaluators :=
  {| phi_current := FEEvaluation_ctor (bar 1 [0; 49]%float [0] [0]);
     phi_current_s := FEEvaluation_ctor (bar 1 [0; 49]%float [0] [0]);
     phi_reference := FEEvaluation_ctor (bar 1 [2; 49]%float [0] [0]) |}.

(** The operator after [compute_diagonal] over the unit bar: the diagonal
    is [1; 4; 2] and its inverse [1; 0.25; 0.5]. *)
Definition bar_with_diagonal : NeoHookOperator :=
  mark_diagonal_available
    (with_diagonals [1; 0.25; 0.5]%float [1; 4; 2]%float
       (bound_operator unit_bar unit_bar)).

(** The same over the bar whose scatter reaches the constrained node. *)
Definition full_scatter_with_diagonal : NeoHookOperator :=
  mark_diagonal_available
    (with_diagonals [1; 0.25; 0.5]%float [1; 4; 2]%float
       (bound_operator unit_bar_full_scatter unit_bar_full_scatter)).

(** The operator over [empty_context] once its (empty) diagonal has been
    computed. *)
Definition empty_with_diagonal : NeoHookOperator :=
  mark_diagonal_available
    (with_diagonals [] [] (bound_operator empty_context empty_context)).

(** ** Loops that update a list entry by entry *)

(** The entry at [i] becomes [f i] of itself. *)
Definition update_at {A : Type} (f : nat → A → A) (v : list A) (i : nat)
  : list A :=
  match v !! i with
  | Some x => <[i := f i x]> v
  | None => v
  end.

(** What the lane round of [do_operation_on_cell] does to lane [i] of
    [JxW_scale]. *)
Definition rescale (JxW_current : VectorizedArray) (i : nat) (x : number)
  : number :=
  if abs_gt (lane JxW_current i) JxW_threshold
  then PrimFloat.mul x (PrimFloat.div 1%float (lane JxW_current i))
  else x.

(** What the inversion loop of [compute_diagonal] does to an entry. *)
Definition clamped_inverse (i : nat) (x : number) : number :=
  if abs_gt x (PrimFloat.sqrt numeric_limits_epsilon)
  then PrimFloat.div 1%float x
  else 1%float.

(** Two operator states that agree on what the operator action and the
    diagonal extraction read: the contexts, the displacement pointer and
    the material. *)
Definition same_binding (op1 op2 : NeoHookOperator) : Prop :=
  data_current op1 = data_current op2
  ∧ data_reference op1 = data_reference op2
  ∧ displacement op1 = displacement op2
  ∧ material op1 = material op2.

(** How often [k] is listed in [l]. *)
Definition occurrences (k : nat) (l : list nat) : nat :=
  length (filter (λ j, j = k) l).

(** The evaluators that [probe] hands to [do_operation_on_cell]: all local
    values set to zero, then the one at [ind_i] set to one, in both current
    evaluators. *)
Definition probe_direction `{physics : Physics} (phis : evaluators)
    (ind_i : nat) : evaluators :=
  let data := matrix_info (phi_current phis) in
  let phis :=
    foldl (λ phis ind_j,
             {| phi_current :=
                  set_dof_value ind_j (make_vectorized_array 0%float)
                    (phi_current phis);
                phi_current_s :=
                  set_dof_value ind_j (make_vectorized_array 0%float)
                    (phi_current_s phis);
                phi_reference := phi_reference phis |})
      phis (local_indices data) in
  {| phi_current :=
       set_dof_value ind_i (make_vectorized_array 1%float) (phi_current phis);
     phi_current_s :=
       set_dof_value ind_i (make_vectorized_array 1%float)
         (phi_current_s phis);
     phi_reference := phi_reference phis |}.

(** An evaluator that is still bound to the same context and cell. *)
Definition same_cell (phi phi' : FEEvaluation) : Prop :=
  matrix_info phi' = matrix_info phi ∧ cell phi' = cell phi.

(** Two triples of evaluators over the same contexts. *)
Definition bound_alike `{physics : Physics} (phis phis' : evaluators) : Prop :=
  matrix_info (phi_current phis') = matrix_info (phi_current phis)
  ∧ matrix_info (phi_current_s phis') = matrix_info (phi_current_s phis)
  ∧ matrix_info (phi_reference phis') = matrix_info (phi_reference phis).

(** Two results of a cell that agree on what outlasts the cell: the same
    failure, or the same global vector and evaluators over the same
    contexts. *)
Definition alike_results `{physics : Physics}
    (r1 r2 : outcome (Vector * evaluators)) : Prop :=
  match r1, r2 with
  | Ok st1, Ok st2 => st1.1 = st2.1 ∧ bound_alike st1.2 st2.2
  | Throw e1, Throw e2 => e1 = e2
  | _, _ => False
  end.

(** The evaluators with their quadrature-point buffers emptied. *)
Definition without_quadrature_data (phis : evaluators) : evaluators :=
  {| phi_current := set_gradients_quad [] (phi_current phis);
     phi_current_s := set_gradients_quad [] (phi_current_s phis);
     phi_reference := set_gradients_quad [] (phi_reference phis) |}.

(** Modelled from deal.II's documentation of [MatrixFree]: the degrees of
    freedom listed by [get_constrained_dofs] are left out of the cell
    kernels, so that [distribute_local_to_global] never writes to them. *)
Definition skips_constrained (data : MatrixFree) : Prop :=
  ∀ c vals dst k,
    k ∈ get_constrained_dofs data →
    scatter_add data c vals dst !! k = dst !! k.

Section in_place.
Context {A : Type}.

Lemma update_at_lookup (f : nat → A → A) (v : list A) (i j : nat) :
  update_at f v i !! j = if decide (j = i) then f i <$> v !! j else v !! j.
Proof.
  unfold update_at. destruct (v !! i) as [x|] eqn:Hi.
  - destruct (decide (j = i)) as [->|Hne].
    + rewrite list_lookup_insert_eq by (eapply lookup_lt_Some; exact Hi).
      now rewrite Hi.
    + now rewrite list_lookup_insert_ne by congruence.
  - destruct (decide (j = i)) as [->|Hne]; [now rewrite Hi|reflexivity].
Qed.

(** After the rounds [0 .. n-1] the entries below [n] are updated once and
    the others are as before. *)
Lemma foldl_update_at_lookup (f : nat → A → A) (v : list A) (n j : nat) :
  foldl (update_at f) v (seq 0 n) !! j
  = if decide (j < n) then f j <$> v !! j else v !! j.
Proof.
  induction n as [|n IH].
  - reflexivity.
  - rewrite seq_S, foldl_app. cbn [foldl]. rewrite Nat.add_0_l.
    rewrite update_at_lookup, IH.
    destruct (decide (j = n)) as [->|Hne].
    + destruct (decide (n < n)) as [Hlt|_]; [lia|].
      destruct (decide (n < S n)) as [_|Hge]; [reflexivity|lia].
    + destruct (decide (j < n)) as [Hlt|Hge];
        destruct (decide (j < S n)) as [Hlt'|Hge']; try reflexivity; lia.
Qed.

Lemma foldl_pointwise {S B : Type} (f g : S → B → S) (l : list B) (s : S) :
  (∀ s' x, f s' x = g s' x) → foldl f s l = foldl g s l.
Proof.
  intros Hfg. revert s. induction l as [|x l IH]; intros s; [reflexivity|].
  cbn [foldl]. now rewrite Hfg, IH.
Qed.

Lemma foldl_update_at_length (f : nat → A → A) (v : list A) (l : list nat) :
  length (foldl (update_at f) v l) = length v.
Proof.
  revert v. induction l as [|i l IH]; intros v; [reflexivity|].
  cbn [foldl]. rewrite IH. unfold update_at.
  destruct (v !! i); [apply length_insert|reflexivity].
Qed.

End in_place.

Lemma JxW_scale_lane_update_at `{physics : Physics}
    (JxW_current s : VectorizedArray) (i : nat) :
  JxW_scale_lane JxW_current s i = update_at (rescale JxW_current) s i.
Proof.
  unfold JxW_scale_lane, update_at, rescale, lane at 2.
  destruct (abs_gt (lane JxW_current i) JxW_threshold);
    destruct (s !! i) as [x|] eqn:Hi; cbn [default]; try reflexivity.
  - apply list_insert_ge. now apply lookup_ge_None.
  - symmetry. now apply list_insert_id.
Qed.

Lemma JxW_scale_lookup `{physics : Physics}
    (JxW_reference JxW_current : VectorizedArray) (i : nat) :
  JxW_scale JxW_reference JxW_current !! i
  = if decide (i < n_array_elements)
    then rescale JxW_current i <$> JxW_reference !! i
    else JxW_reference !! i.
Proof.
  unfold JxW_scale.
  rewrite <- (foldl_update_at_lookup (rescale JxW_current)).
  f_equal. apply foldl_pointwise. intros s k. apply JxW_scale_lane_update_at.
Qed.

(** ** The quadrature-weight rescale factor *)

(** C1, as the kernel has it: at every quadrature point the two submitted
    contributions, the material tangent part and the geometric stress part,
    are multiplied by one and the same lane vector [JxW_scale]; its lane [i]
    is the reference weight times the reciprocal of the current weight when
    the magnitude of the current weight exceeds [1e-10], and the reference
    weight itself otherwise. *)
Theorem rescale_factor_per_lane `{physics : Physics}
    (mat : Material) (phis : evaluators) (q i : nat) :
  i < n_array_elements →
  length (JxW (phi_reference phis) q) = n_array_elements →
  let JxW_reference := JxW (phi_reference phis) q in
  let JxW_current := JxW (phi_current phis) q in
  let s := JxW_scale JxW_reference JxW_current in
  let F := Kinematics_F (get_gradient (phi_reference phis) q) in
  let det_F := determinant F in
  let b_bar := Kinematics_b (Kinematics_F_iso F) in
  let jc_part :=
    act_Jc mat det_F b_bar (get_symmetric_gradient (phi_current phis) q) in
  let geo :=
    egeo_grad (get_gradient (phi_current phis) q)
      (Tensor_of_symmetric (get_tau mat det_F b_bar)) in
  quadrature_point (Some mat) phis q
  = Ok {| phi_current :=
            submit_gradient (Tensor_times geo s) q (phi_current phis);
          phi_current_s :=
            submit_symmetric_gradient (Tensor_times jc_part s) q
              (phi_current_s phis);
          phi_reference := phi_reference phis |}
  ∧ lane s i
    = if abs_gt (lane JxW_current i) JxW_threshold
      then PrimFloat.mul (lane JxW_reference i)
             (PrimFloat.div 1%float (lane JxW_current i))
      else lane JxW_reference i.
Proof.
  intros Hi Hlen JxW_reference JxW_current s F det_F b_bar jc_part geo.
  split; [reflexivity|].
  subst s JxW_reference JxW_current.
  destruct (lookup_lt_is_Some_2 (JxW (phi_reference phis) q) i) as [x Hx].
  { rewrite Hlen. exact Hi. }
  assert (Href : lane (JxW (phi_reference phis) q) i = x)
    by (unfold lane; now rewrite Hx).
  rewrite Href. unfold lane at 1. rewrite JxW_scale_lookup, Hx.
  destruct (decide (i < n_array_elements)) as [_|Hge]; [|lia].
  reflexivity.
Qed.

Lemma rescale_factor_per_lane_witness :
  0 < @n_array_elements line_physics
  ∧ length (JxW (phi_reference degenerate_bar_evaluators) 0)
    = @n_array_elements line_physics
  ∧ lane (JxW_scale (physics := line_physics)
            (JxW (phi_reference degenerate_bar_evaluators) 0)
            (JxW (phi_current degenerate_bar_evaluators) 0)) 0
    = 2%float.
Proof.
  split; [cbn; lia|]. split; [reflexivity|].
  pose proof (rescale_factor_per_lane (physics := line_physics) unit_material
                degenerate_bar_evaluators 0 0) as Hthm.
  cbv zeta in Hthm.
  destruct Hthm as [_ Hlane]; [cbn; lia|reflexivity|].
  rewrite Hlane. reflexivity.
Defined.

(** C1 as the specification words it fails: with a current weight of zero
    the factor is the reference weight [2], not [1]; and above the
    threshold the factor is [49 * (1/49)], which is not the quotient
    [49/49]. *)
Lemma rescale_factor_counterexample :
  let JxW_reference := JxW (phi_reference degenerate_bar_evaluators) 0 in
  let JxW_current := JxW (phi_current degenerate_bar_evaluators) 0 in
  let s := JxW_scale (physics := line_physics) JxW_reference JxW_current in
  (abs_gt (lane JxW_current 0) JxW_threshold = false
   ∧ lane s 0 = 2%float ∧ lane s 0 ≠ 1%float)
  ∧ (abs_gt (lane JxW_current 1) JxW_threshold = true
     ∧ lane s 1 ≠ PrimFloat.div (lane JxW_reference 1) (lane JxW_current 1)).
Proof.
  vm_compute. repeat split; try reflexivity; intros Heq; discriminate Heq.
Qed.

(** ** The constraint loop of the operator action *)

(** A sequence returns exactly when both of its parts do. *)
Lemma bind_Ok {A B : Type} (m : outcome A) (f : A → outcome B) (b : B) :
  m ≫= f = Ok b ↔ ∃ a, m = Ok a ∧ f a = Ok b.
Proof.
  destruct m as [a|e]; cbn; split.
  - intros Hf. now exists a.
  - now intros (a' & [= <-] & Hf).
  - discriminate.
  - intros (a' & Hd & _). discriminate Hd.
Qed.

Lemma Vector_at_Ok (v : Vector) (i : nat) (x : number) :
  Vector_at v i = Ok x ↔ v !! i = Some x.
Proof.
  unfold Vector_at. destruct (v !! i); split; intros Heq; congruence.
Qed.

Lemma Vector_set_Ok (v v' : Vector) (i : nat) (x : number) :
  Vector_set v i x = Ok v' ↔ i < length v ∧ v' = <[i := x]> v.
Proof.
  unfold Vector_set. destruct (decide (i < length v)); split.
  - intros [= <-]. now split.
  - intros [_ ->]. reflexivity.
  - discriminate.
  - intros [Hlt _]. lia.
Qed.

(** One round of the constraint loop adds [src(k)] to [dst(k)] and leaves
    the other entries alone. *)
Lemma add_constrained_entry_Ok (src dst dst' : Vector) (k : nat) :
  add_constrained_entry src dst k = Ok dst' →
  ∃ d s, dst !! k = Some d ∧ src !! k = Some s
         ∧ dst' = <[k := PrimFloat.add d s]> dst.
Proof.
  unfold add_constrained_entry. cbn.
  destruct (Vector_at dst k) as [d|] eqn:Hd; [|discriminate].
  destruct (Vector_at src k) as [s|] eqn:Hs; [|discriminate].
  intros [_ ->]%Vector_set_Ok.
  exists d, s. now rewrite <- !Vector_at_Ok.
Qed.

Lemma constraint_loop_other (src : Vector) (l : list nat) (dst dst' : Vector)
    (j : nat) :
  for_each (add_constrained_entry src) l dst = Ok dst' →
  j ∉ l → dst' !! j = dst !! j.
Proof.
  revert dst. induction l as [|k l IH]; intros dst Hrun Hj.
  - injection Hrun as <-. reflexivity.
  - cbn in Hrun.
    destruct (add_constrained_entry src dst k) as [dst1|] eqn:Hstep;
      [|discriminate].
    apply add_constrained_entry_Ok in Hstep as (d & s & _ & _ & ->).
    apply not_elem_of_cons in Hj as [Hne Hj].
    rewrite (IH _ Hrun Hj). now apply list_lookup_insert_ne.
Qed.

(** An index listed once receives [src(k)] once. *)
Lemma constraint_loop_listed (src : Vector) (l : list nat) (dst dst' : Vector)
    (k : nat) :
  for_each (add_constrained_entry src) l dst = Ok dst' →
  NoDup l → k ∈ l →
  ∃ d s, dst !! k = Some d ∧ src !! k = Some s
         ∧ dst' !! k = Some (PrimFloat.add d s).
Proof.
  revert dst. induction l as [|k0 l IH]; intros dst Hrun Hnd Hk.
  - now apply elem_of_nil in Hk.
  - cbn in Hrun.
    destruct (add_constrained_entry src dst k0) as [dst1|] eqn:Hstep;
      [|discriminate].
    apply add_constrained_entry_Ok in Hstep as (d & s & Hd & Hs & ->).
    apply NoDup_cons in Hnd as [Hfresh Hnd].
    apply elem_of_cons in Hk as [->|Hk].
    + exists d, s. split; [exact Hd|]. split; [exact Hs|].
      rewrite (constraint_loop_other _ _ _ _ _ Hrun Hfresh).
      apply list_lookup_insert_eq. eapply lookup_lt_Some, Hd.
    + destruct (IH _ Hrun Hnd Hk) as (d' & s' & Hd' & Hs' & Hres).
      exists d', s'. split; [|now split].
      rewrite list_lookup_insert_ne in Hd'; [exact Hd'|].
      intros ->. contradiction.
Qed.

(** Adding a number to zero gives a number that compares equal to it
    ([==] on doubles), unless it is not a number. *)
Lemma zero_plus_eqb (s : number) :
  PrimFloat.is_nan s = false →
  PrimFloat.eqb (PrimFloat.add 0%float s) s = true.
Proof.
  unfold PrimFloat.is_nan. intros Hs. apply negb_false_iff in Hs.
  rewrite FloatAxioms.eqb_spec in *. rewrite FloatAxioms.add_spec.
  change (Prim2SF 0) with (S754_zero false).
  destruct (Prim2SF s) as [b|b| |b m e]; try exact Hs.
  destruct b; reflexivity.
Qed.

(** ** The Jacobi preconditioner and the diagonal accessor *)

Lemma Vector_scale_lookup (v factors scaled : Vector) :
  Vector_scale v factors = Ok scaled →
  length scaled = length v
  ∧ ∀ i x d, v !! i = Some x → factors !! i = Some d →
             scaled !! i = Some (PrimFloat.mul x d).
Proof.
  unfold Vector_scale.
  destruct (decide (length v = length factors)) as [Hlen|]; [|discriminate].
  intros [= <-]. split.
  - rewrite length_zip_with. lia.
  - intros i x d Hx Hd. rewrite lookup_zip_with, Hx, Hd. reflexivity.
Qed.

(** C3, as the code has it: [precondition_Jacobi] fails with
    [ExcNotInitialized] when the inverse diagonal has not been computed or
    has no entries; otherwise, for every [src] of the size of the diagonal
    and every [omega], [dst] has the size of [src] and its entry [i] is
    [src(i)] times the inverse diagonal entry [i], times [omega]. *)
Theorem precondition_Jacobi_scaling (op : NeoHookOperator)
    (dst src : Vector) (omega : number) :
  (inverse_diagonal_entries op = None ∨ inverse_diagonal_entries op = Some [] →
   precondition_Jacobi op dst src omega = Throw ExcNotInitialized)
  ∧ (∀ inverse_diagonal,
       inverse_diagonal_entries op = Some inverse_diagonal →
       0 < length inverse_diagonal →
       length src = length inverse_diagonal →
       ∃ dst',
         precondition_Jacobi op dst src omega = Ok dst'
         ∧ length dst' = length src
         ∧ ∀ i x d, src !! i = Some x → inverse_diagonal !! i = Some d →
             dst' !! i = Some (PrimFloat.mul (PrimFloat.mul x d) omega)).
Proof.
  unfold precondition_Jacobi. split.
  - intros [-> | ->]; reflexivity.
  - intros inverse_diagonal -> Hpos Hlen.
    rewrite bool_decide_true by exact Hpos. cbn.
    unfold DiagonalMatrix_vmult.
    destruct (Vector_scale src inverse_diagonal) as [scaled|e] eqn:Hscale.
    + apply Vector_scale_lookup in Hscale as [Hsize Hentries].
      exists (Vector_times_eq scaled omega). cbn.
      split; [reflexivity|]. unfold Vector_times_eq. split.
      * now rewrite length_fmap.
      * intros i x d Hx Hd. rewrite list_lookup_fmap.
        now rewrite (Hentries i x d Hx Hd).
    + unfold Vector_scale in Hscale.
      destruct (decide (length src = length inverse_diagonal));
        [discriminate|contradiction].
Qed.

Lemma precondition_Jacobi_scaling_witness :
  inverse_diagonal_entries bar_with_diagonal = Some [1; 0.25; 0.5]%float
  ∧ 0 < length [1; 0.25; 0.5]%float
  ∧ length [8; 8; 8]%float = length [1; 0.25; 0.5]%float
  ∧ ∃ dst',
      precondition_Jacobi bar_with_diagonal [] [8; 8; 8]%float 3%float = Ok dst'
      ∧ length dst' = 3
      ∧ ∀ i x d, [8; 8; 8]%float !! i = Some x →
                 [1; 0.25; 0.5]%float !! i = Some d →
                 dst' !! i = Some (PrimFloat.mul (PrimFloat.mul x d) 3%float).
Proof.
  split; [reflexivity|]. split; [cbn; lia|]. split; [reflexivity|].
  exact (proj2 (precondition_Jacobi_scaling bar_with_diagonal []
                  [8; 8; 8]%float 3%float)
           [1; 0.25; 0.5]%float eq_refl (Nat.lt_0_succ 2) eq_refl).
Defined.

(** C3 as the specification words it fails when the computed inverse
    diagonal has no entries: [compute_diagonal] has completed, and
    [precondition_Jacobi] still fails with [ExcNotInitialized]. *)
Lemma precondition_Jacobi_counterexample :
  compute_diagonal (physics := line_physics)
    (bound_operator empty_context empty_context) (memory_with [])
  = Ok empty_with_diagonal
  ∧ inverse_diagonal_entries empty_with_diagonal = Some []
  ∧ diagonal_is_available empty_with_diagonal = true
  ∧ precondition_Jacobi empty_with_diagonal [] [] 1%float
    = Throw ExcNotInitialized.
Proof. repeat split. Qed.

(** C7: [el] fails with [ExcNotImplemented] off the diagonal; on the
    diagonal it fails with [ExcNotInitialized] unless the diagonal is
    available, and then returns the stored diagonal entry of that row. *)
Theorem el_diagonal_only (op : NeoHookOperator) (row col : nat) :
  (row ≠ col → el op row col = Throw ExcNotImplemented)
  ∧ (row = col → diagonal_is_available op = false →
     el op row col = Throw ExcNotInitialized)
  ∧ (∀ diagonal x,
       row = col → diagonal_is_available op = true →
       diagonal_entries op = Some diagonal → diagonal !! row = Some x →
       el op row col = Ok x).
Proof.
  unfold el. repeat split.
  - intros Hne. now rewrite bool_decide_false by exact Hne.
  - intros -> ->. now rewrite bool_decide_true by reflexivity.
  - intros diagonal x -> -> -> Hx.
    rewrite bool_decide_true by reflexivity. cbn.
    now apply Vector_at_Ok.
Qed.

Lemma el_diagonal_only_witness :
  (1 ≠ 2 → el bar_with_diagonal 1 2 = Throw ExcNotImplemented)
  ∧ el (bound_operator unit_bar unit_bar) 1 1 = Throw ExcNotInitialized
  ∧ el bar_with_diagonal 1 1 = Ok 4%float.
Proof.
  split; [|split].
  - exact (proj1 (el_diagonal_only bar_with_diagonal 1 2)).
  - exact (proj1 (proj2 (el_diagonal_only (bound_operator unit_bar unit_bar)
                           1 1)) eq_refl eq_refl).
  - exact (proj2 (proj2 (el_diagonal_only bar_with_diagonal 1 1))
             [1; 4; 2]%float 4%float eq_refl eq_refl eq_refl eq_refl).
Defined.

(** ** The transposed action *)

(** C6: [Tvmult] is [vmult] and [Tvmult_add] is [vmult_add], for every
    operator state, destination and source. *)
Theorem transpose_is_forward `{physics : Physics}
    (op : NeoHookOperator) (mem : memory) (dst src : Vector) :
  Tvmult op mem dst src = vmult op mem dst src
  ∧ Tvmult_add op mem dst src = vmult_add op mem dst src.
Proof. split; reflexivity. Qed.

(** ** What [clear] resets *)

(** C10: [clear] unbinds both contexts, drops both diagonal vectors and
    resets the flag, and leaves the material and the displacement pointer
    as they were; after [clear] and a new [initialize] the material set
    before is still the one bound, and the operator acts as it would have
    without the [clear]. *)
Theorem clear_keeps_material `{physics : Physics} (op : NeoHookOperator)
    (cur ref : MatrixFree) (u : nat) :
  data_current (clear op) = None
  ∧ data_reference (clear op) = None
  ∧ diagonal_entries (clear op) = None
  ∧ inverse_diagonal_entries (clear op) = None
  ∧ diagonal_is_available (clear op) = false
  ∧ material (clear op) = material op
  ∧ displacement (clear op) = displacement op
  ∧ material (initialize cur ref u (clear op)) = material op
  ∧ ∀ mem dst src,
      vmult (initialize cur ref u (clear op)) mem dst src
      = vmult (initialize cur ref u op) mem dst src.
Proof. repeat split. Qed.

(** ** The diagonal and its inverse *)

Lemma invert_entry_update_at (v : Vector) (i : nat) :
  invert_entry v i = update_at clamped_inverse v i.
Proof.
  unfold invert_entry, update_at, clamped_inverse.
  destruct (v !! i) as [x|] eqn:Hi; cbn [default].
  - destruct (abs_gt _ _); reflexivity.
  - apply lookup_ge_None in Hi.
    destruct (abs_gt _ _); now apply list_insert_ge.
Qed.

Lemma invert_diagonal_lookup (diagonal_vector : Vector) (i : nat) :
  invert_diagonal diagonal_vector !! i
  = clamped_inverse i <$> diagonal_vector !! i.
Proof.
  unfold invert_diagonal.
  rewrite (foldl_pointwise _ (update_at clamped_inverse))
    by (intros; apply invert_entry_update_at).
  rewrite foldl_update_at_lookup.
  destruct (decide (i < length diagonal_vector)) as [_|Hge]; [reflexivity|].
  rewrite (proj2 (lookup_ge_None diagonal_vector i)) by lia. reflexivity.
Qed.

Lemma invert_diagonal_length (diagonal_vector : Vector) :
  length (invert_diagonal diagonal_vector) = length diagonal_vector.
Proof.
  unfold invert_diagonal.
  rewrite (foldl_pointwise _ (update_at clamped_inverse))
    by (intros; apply invert_entry_update_at).
  apply foldl_update_at_length.
Qed.

(** The loop over the constrained indices leaves one at each of them and
    touches nothing else. *)
Lemma constrained_entries_one (l : list nat) (v v' : Vector) :
  for_each set_constrained_entry_to_one l v = Ok v' →
  (∀ k, k ∈ l → v' !! k = Some 1%float)
  ∧ (∀ k, v !! k = Some 1%float → v' !! k = Some 1%float)
  ∧ (∀ k, k ∉ l → v' !! k = v !! k).
Proof.
  revert v. induction l as [|k0 l IH]; intros v Hrun.
  - injection Hrun as <-. repeat split; try done.
    intros k Hk. now apply elem_of_nil in Hk.
  - cbn [for_each] in Hrun. apply bind_Ok in Hrun as (v1 & Hset & Hrun).
    apply Vector_set_Ok in Hset as [Hlt ->].
    destruct (IH _ Hrun) as (Hin & Hkeep & Hout).
    repeat split.
    + intros k [->|Hk]%elem_of_cons; [|now apply Hin].
      apply Hkeep. now apply list_lookup_insert_eq.
    + intros k Hk. apply Hkeep.
      destruct (decide (k = k0)) as [->|Hne].
      * now apply list_lookup_insert_eq.
      * now rewrite list_lookup_insert_ne by congruence.
    + intros k [Hne Hk]%not_elem_of_cons.
      rewrite (Hout k Hk). now apply list_lookup_insert_ne.
Qed.

(** [compute_diagonal] returns exactly when its three phases have run to
    their end: the probing cell loop, the fix-up of the constrained entries
    and the inversion. *)
Lemma compute_diagonal_Ok `{physics : Physics}
    (op op' : NeoHookOperator) (mem : memory) :
  compute_diagonal op mem = Ok op' ↔
  ∃ cur probed fixed,
    data_current op = Some cur
    ∧ local_diagonal_cell (with_diagonals [] [] op) mem
        (initialize_dof_vector cur) (0, n_macro_cells cur) = Ok probed
    ∧ for_each set_constrained_entry_to_one (get_constrained_dofs cur) probed
      = Ok fixed
    ∧ op' = mark_diagonal_available (with_computed_diagonal fixed op).
Proof.
  unfold compute_diagonal. cbn [with_diagonals data_current].
  split.
  - intros (cur & Hcur & Hrun)%bind_Ok.
    apply bind_Ok in Hrun as (probed & Hprobe & Hrun).
    apply bind_Ok in Hrun as (fixed & Hfix & [= <-]).
    exists cur, probed, fixed. repeat split; try assumption.
    now destruct (data_current op) as [cur'|]; [injection Hcur as ->|].
  - intros (cur & probed & fixed & Hcur & Hprobe & Hfix & ->).
    rewrite Hcur. cbn. rewrite Hprobe. cbn. rewrite Hfix. reflexivity.
Qed.

(** C4: after [compute_diagonal] the inverse diagonal mirrors the diagonal
    entry by entry: the reciprocal where the magnitude of the diagonal
    entry exceeds the square root of the machine epsilon, and exactly one
    otherwise. *)
Theorem compute_diagonal_clamps_inverse `{physics : Physics}
    (op op' : NeoHookOperator) (mem : memory) :
  compute_diagonal op mem = Ok op' →
  ∃ diagonal inverse_diagonal,
    diagonal_entries op' = Some diagonal
    ∧ inverse_diagonal_entries op' = Some inverse_diagonal
    ∧ length inverse_diagonal = length diagonal
    ∧ ∀ i x, diagonal !! i = Some x →
        inverse_diagonal !! i
        = Some (if abs_gt x (PrimFloat.sqrt numeric_limits_epsilon)
                then PrimFloat.div 1%float x
                else 1%float).
Proof.
  intros (cur & probed & fixed & _ & _ & _ & ->)%compute_diagonal_Ok.
  exists fixed, (invert_diagonal fixed). cbn.
  split; [reflexivity|]. split; [reflexivity|].
  split; [apply invert_diagonal_length|].
  intros i x Hx. now rewrite invert_diagonal_lookup, Hx.
Qed.

(** C5: after [compute_diagonal] the diagonal entry at every constrained
    index is exactly one, whatever the probing left there. *)
Theorem compute_diagonal_constrained_one `{physics : Physics}
    (op op' : NeoHookOperator) (mem : memory) (cur : MatrixFree) (k : nat) :
  compute_diagonal op mem = Ok op' →
  data_current op = Some cur →
  k ∈ get_constrained_dofs cur →
  ∃ diagonal,
    diagonal_entries op' = Some diagonal ∧ diagonal !! k = Some 1%float.
Proof.
  intros (cur' & probed & fixed & Hcur' & _ & Hfix & ->)%compute_diagonal_Ok
    Hcur Hk.
  rewrite Hcur in Hcur'. injection Hcur' as <-.
  exists fixed. split; [reflexivity|].
  destruct (constrained_entries_one _ _ _ Hfix) as (Hin & _ & _).
  apply Hin, Hk.
Qed.

(** C9: the flag is false in a new operator and after [clear];
    [initialize] and [set_material] leave it as it is; and
    [compute_diagonal] sets it as its last step, on the state that already
    holds the probed and fixed-up diagonal and its inverse, so that a call
    that returns has run all three phases. *)
Theorem diagonal_flag_lifecycle `{physics : Physics} :
  diagonal_is_available NeoHookOperator_ctor = false
  ∧ (∀ op, diagonal_is_available (clear op) = false)
  ∧ (∀ op cur ref u,
       diagonal_is_available (initialize cur ref u op)
       = diagonal_is_available op)
  ∧ (∀ op mat,
       diagonal_is_available (set_material mat op) = diagonal_is_available op)
  ∧ (∀ op mem op',
       compute_diagonal op mem = Ok op' →
       ∃ cur probed fixed,
         data_current op = Some cur
         ∧ local_diagonal_cell (with_diagonals [] [] op) mem
             (initialize_dof_vector cur) (0, n_macro_cells cur) = Ok probed
         ∧ for_each set_constrained_entry_to_one (get_constrained_dofs cur)
             probed = Ok fixed
         ∧ diagonal_is_available (with_computed_diagonal fixed op)
           = diagonal_is_available op
         ∧ op' = mark_diagonal_available (with_computed_diagonal fixed op)
         ∧ diagonal_is_available op' = true).
Proof.
  repeat split.
  intros op mem op' (cur & probed & fixed & Hcur & Hprobe & Hfix & ->)
    %compute_diagonal_Ok.
  exists cur, probed, fixed. repeat split; assumption.
Qed.

(** [compute_diagonal] over the unit bar, run. *)
Lemma compute_diagonal_unit_bar :
  compute_diagonal (physics := line_physics) (bound_operator unit_bar unit_bar)
    (memory_with [0; 0.5; 1.5]%float)
  = Ok bar_with_diagonal.
Proof. vm_compute. reflexivity. Qed.

Lemma compute_diagonal_clamps_inverse_witness :
  compute_diagonal (physics := line_physics) (bound_operator unit_bar unit_bar)
    (memory_with [0; 0.5; 1.5]%float)
  = Ok bar_with_diagonal
  ∧ ∃ diagonal inverse_diagonal,
      diagonal_entries bar_with_diagonal = Some diagonal
      ∧ inverse_diagonal_entries bar_with_diagonal = Some inverse_diagonal
      ∧ length inverse_diagonal = length diagonal
      ∧ ∀ i x, diagonal !! i = Some x →
          inverse_diagonal !! i
          = Some (if abs_gt x (PrimFloat.sqrt numeric_limits_epsilon)
                  then PrimFloat.div 1%float x
                  else 1%float).
Proof.
  split; [exact compute_diagonal_unit_bar|].
  exact (compute_diagonal_clamps_inverse (physics := line_physics) _ _ _
           compute_diagonal_unit_bar).
Defined.

(** The threshold of the inversion is 2^-26, and entries at or below it,
    as well as an entry that is not a number, are clamped to one. *)
Lemma invert_diagonal_samples :
  PrimFloat.sqrt numeric_limits_epsilon = 0x1p-26%float
  ∧ invert_diagonal
      [0; 0x1p-26; -0x1p-30; 4; -0.5; nan; infinity]%float
    = [1; 1; 1; 0.25; -2; 1; 0]%float.
Proof. split; vm_compute; reflexivity. Qed.

(** On the bar whose scatter reaches the constrained node the probing
    leaves [2] at that node; the diagonal ends with [1] there. *)
Lemma compute_diagonal_constrained_one_witness :
  let op := bound_operator unit_bar_full_scatter unit_bar_full_scatter in
  let mem := memory_with [0; 0.5; 1.5]%float in
  local_diagonal_cell (physics := line_physics) op mem
    (initialize_dof_vector unit_bar_full_scatter)
    (0, n_macro_cells unit_bar_full_scatter)
  = Ok [2; 4; 2]%float
  ∧ compute_diagonal (physics := line_physics) op mem
    = Ok full_scatter_with_diagonal
  ∧ data_current op = Some unit_bar_full_scatter
  ∧ 0 ∈ get_constrained_dofs unit_bar_full_scatter
  ∧ ∃ diagonal,
      diagonal_entries full_scatter_with_diagonal = Some diagonal
      ∧ diagonal !! 0 = Some 1%float.
Proof.
  intros op mem.
  assert (Hrun : compute_diagonal (physics := line_physics) op mem
                 = Ok full_scatter_with_diagonal) by (vm_compute; reflexivity).
  split; [vm_compute; reflexivity|]. split; [exact Hrun|].
  split; [reflexivity|]. split; [apply list_elem_of_here|].
  exact (compute_diagonal_constrained_one (physics := line_physics) op
           full_scatter_with_diagonal mem unit_bar_full_scatter 0 Hrun eq_refl
           (list_elem_of_here 0 [])).
Defined.

Lemma diagonal_flag_lifecycle_witness :
  compute_diagonal (physics := line_physics) (bound_operator unit_bar unit_bar)
    (memory_with [0; 0.5; 1.5]%float)
  = Ok bar_with_diagonal
  ∧ diagonal_is_available (bound_operator unit_bar unit_bar) = false
  ∧ diagonal_is_available bar_with_diagonal = true
  ∧ diagonal_is_available (clear bar_with_diagonal) = false.
Proof.
  destruct (diagonal_flag_lifecycle (physics := line_physics))
    as (_ & Hclear & _ & _ & Hcompute).
  split; [exact compute_diagonal_unit_bar|]. split; [reflexivity|].
  split; [|apply Hclear].
  destruct (Hcompute _ _ _ compute_diagonal_unit_bar)
    as (cur & probed & fixed & _ & _ & _ & _ & _ & Hflag).
  exact Hflag.
Defined.

(** ** The consistency checks of the operator action *)

(** A loop fails only where its body fails. *)
Lemma for_each_Throw {A S : Type} (body : S → A → outcome S) (l : list A)
    (s : S) (e : ExceptionBase) :
  for_each body l s = Throw e → ∃ s' x, x ∈ l ∧ body s' x = Throw e.
Proof.
  revert s. induction l as [|x l IH]; intros s Hrun; [discriminate|].
  cbn [for_each] in Hrun.
  destruct (body s x) as [s1|e1] eqn:Hbody; cbn in Hrun.
  - destruct (IH _ Hrun) as (s' & y & Hy & Hfail).
    exists s', y. split; [now apply list_elem_of_further|exact Hfail].
  - injection Hrun as ->. exists s, x. split; [apply list_elem_of_here|].
    exact Hbody.
Qed.

Lemma deref_Throw {A : Type} (p : option A) (e : ExceptionBase) :
  deref p = Throw e → e = InvalidPointer.
Proof. destruct p; [discriminate|]. now intros [= <-]. Qed.

Lemma bind_Throw {A B : Type} (m : outcome A) (f : A → outcome B)
    (e : ExceptionBase) :
  m ≫= f = Throw e ↔ m = Throw e ∨ ∃ a, m = Ok a ∧ f a = Throw e.
Proof.
  destruct m as [a|e']; cbn; split.
  - intros Hf. right. now exists a.
  - intros [[=]|(a' & [= <-] & Hf)]. exact Hf.
  - intros [= ->]. now left.
  - intros [[= ->]|(a' & Hd & _)]; [reflexivity|discriminate Hd].
Qed.

Lemma displacement_vector_Throw (op : NeoHookOperator) (mem : memory)
    (e : ExceptionBase) :
  displacement_vector op mem = Throw e → e = InvalidPointer.
Proof.
  unfold displacement_vector.
  intros [Hfail|(a & _ & Hfail)]%bind_Throw; now apply deref_Throw in Hfail.
Qed.

Lemma quadrature_point_Throw `{physics : Physics} (mat : option Material)
    (phis : evaluators) (q : nat) (e : ExceptionBase) :
  quadrature_point mat phis q = Throw e → e = InvalidPointer.
Proof.
  unfold quadrature_point.
  intros [Hfail|(m & _ & Hfail)]%bind_Throw.
  - now apply deref_Throw in Hfail.
  - destruct (contributions_at m phis q). discriminate.
Qed.

Lemma do_operation_on_cell_Throw `{physics : Physics} (op : NeoHookOperator)
    (phis : evaluators) (e : ExceptionBase) :
  do_operation_on_cell op phis = Throw e → e = InvalidPointer.
Proof.
  unfold do_operation_on_cell.
  intros [Hfail|(phis' & _ & [=])]%bind_Throw.
  apply for_each_Throw in Hfail as (s' & q & _ & Hfail).
  now apply quadrature_point_Throw in Hfail.
Qed.

(** The body of the cell loop holds no check of its own: it can only fail
    on an unset pointer. *)
Lemma apply_on_cell_Throw `{physics : Physics} (op : NeoHookOperator)
    (mem : memory) (src : Vector) (st : Vector * evaluators) (c : nat)
    (e : ExceptionBase) :
  apply_on_cell op mem src st c = Throw e → e = InvalidPointer.
Proof.
  unfold apply_on_cell. destruct st as [dst phis].
  intros [Hfail|(u & _ & Hfail)]%bind_Throw.
  - now apply displacement_vector_Throw in Hfail.
  - apply bind_Throw in Hfail as [Hfail|(phis' & _ & [=])].
    now apply do_operation_on_cell_Throw in Hfail.
Qed.

Lemma constraint_loop_Throw (src : Vector) (l : list nat) (dst : Vector)
    (e : ExceptionBase) :
  for_each (add_constrained_entry src) l dst = Throw e → e = ExcIndexRange.
Proof.
  intros (dst' & k & _ & Hfail)%for_each_Throw.
  unfold add_constrained_entry, Vector_at, Vector_set in Hfail.
  destruct (dst' !! k) as [d|]; cbn in Hfail; [|now injection Hfail].
  destruct (src !! k) as [s|]; cbn in Hfail; [|now injection Hfail].
  destruct (decide (k < length dst')); [discriminate|now injection Hfail].
Qed.

(** Once both checks have passed, the call is the cell loop followed by the
    constraint loop. *)
Lemma vmult_add_checked `{physics : Physics} (op : NeoHookOperator)
    (mem : memory) (dst src : Vector) (cur ref : MatrixFree) :
  data_current op = Some cur → data_reference op = Some ref →
  n_macro_cells cur = n_macro_cells ref →
  n_q_points cur = n_q_points ref →
  vmult_add op mem dst src
  = st ← for_each (apply_on_cell op mem src) (seq 0 (n_macro_cells cur))
           (dst, fresh_evaluators cur ref);
    for_each (add_constrained_entry src) (get_constrained_dofs cur) st.1.
Proof.
  intros Hcur Href Hcells Hq. unfold vmult_add, local_apply_cell.
  rewrite Hcur, Href. cbn.
  rewrite !bool_decide_true by assumption. cbn.
  rewrite Nat.sub_0_r. unfold fresh_evaluators.
  now destruct (for_each (apply_on_cell op mem src) _ _).
Qed.

Lemma vmult_add_mismatch `{physics : Physics} (op : NeoHookOperator)
    (mem : memory) (dst src : Vector) (cur ref : MatrixFree) :
  data_current op = Some cur → data_reference op = Some ref →
  n_macro_cells cur ≠ n_macro_cells ref ∨ n_q_points cur ≠ n_q_points ref →
  vmult_add op mem dst src = Throw ExcInternalError.
Proof.
  intros Hcur Href Hne. unfold vmult_add, local_apply_cell.
  rewrite Hcur, Href. cbn.
  destruct (decide (n_macro_cells cur = n_macro_cells ref)) as [Hcells|Hcells].
  - rewrite (bool_decide_true (n_macro_cells cur = n_macro_cells ref))
      by exact Hcells.
    cbn. destruct Hne as [Hne|Hne]; [contradiction|].
    now rewrite (bool_decide_false (n_q_points cur = n_q_points ref))
      by exact Hne.
  - now rewrite (bool_decide_false (n_macro_cells cur = n_macro_cells ref))
      by exact Hcells.
Qed.

Lemma vmult_add_no_internal_error `{physics : Physics} (op : NeoHookOperator)
    (mem : memory) (dst src : Vector) (cur ref : MatrixFree) :
  data_current op = Some cur → data_reference op = Some ref →
  n_macro_cells cur = n_macro_cells ref →
  n_q_points cur = n_q_points ref →
  vmult_add op mem dst src ≠ Throw ExcInternalError.
Proof.
  intros Hcur Href Hcells Hq.
  rewrite (vmult_add_checked op mem dst src cur ref) by assumption.
  intros [Hfail|(st & _ & Hfail)]%bind_Throw.
  - apply for_each_Throw in Hfail as (st & c & _ & Hfail).
    now apply apply_on_cell_Throw in Hfail.
  - now apply constraint_loop_Throw in Hfail.
Qed.

(** C8: every entry point of the operator action checks that the two
    contexts agree on the number of cell batches and on the number of
    quadrature points.  A mismatch ends the call with [ExcInternalError];
    with equal counts no entry point ends so, the call is the cell loop
    followed by the constraint loop, and the body of the cell loop never
    raises [ExcInternalError]: the checks are made once, ahead of the
    cells. *)
Theorem counts_checked_once_per_call `{physics : Physics}
    (op : NeoHookOperator) (mem : memory) (dst src : Vector)
    (cur ref : MatrixFree) :
  data_current op = Some cur →
  data_reference op = Some ref →
  (n_macro_cells cur ≠ n_macro_cells ref ∨ n_q_points cur ≠ n_q_points ref →
   Forall (λ action, action op mem dst src = Throw ExcInternalError)
     operator_actions)
  ∧ (n_macro_cells cur = n_macro_cells ref →
     n_q_points cur = n_q_points ref →
     Forall (λ action, action op mem dst src ≠ Throw ExcInternalError)
       operator_actions
     ∧ vmult_add op mem dst src
       = (st ← for_each (apply_on_cell op mem src)
                 (seq 0 (n_macro_cells cur)) (dst, fresh_evaluators cur ref);
          for_each (add_constrained_entry src) (get_constrained_dofs cur)
            st.1)
     ∧ ∀ st c, apply_on_cell op mem src st c ≠ Throw ExcInternalError).
Proof.
  intros Hcur Href. split.
  - intros Hne. unfold operator_actions, vmult, Tvmult, Tvmult_add.
    repeat constructor; now apply (vmult_add_mismatch _ _ _ _ cur ref).
  - intros Hcells Hq. split; [|split].
    + unfold operator_actions, vmult, Tvmult, Tvmult_add.
      repeat constructor;
        now apply (vmult_add_no_internal_error _ _ _ _ cur ref).
    + now apply vmult_add_checked.
    + intros st c Hfail. now apply apply_on_cell_Throw in Hfail.
Qed.

Lemma counts_checked_once_per_call_witness :
  let mem := memory_with [0; 0.5; 1.5]%float in
  let dst := [9; 9; 9]%float in
  let src := [5; 1; 2]%float in
  Forall (λ action,
            action (bound_operator unit_bar two_point_bar) mem dst src
            = Throw ExcInternalError)
    (operator_actions (physics := line_physics))
  ∧ Forall (λ action,
              action (bound_operator unit_bar unit_bar) mem dst src
              ≠ Throw ExcInternalError)
      (operator_actions (physics := line_physics)).
Proof.
  intros mem dst src. split.
  - apply (proj1 (counts_checked_once_per_call (physics := line_physics)
                    (bound_operator unit_bar two_point_bar) mem dst src
                    unit_bar two_point_bar eq_refl eq_refl)).
    right. cbn. lia.
  - apply (proj2 (counts_checked_once_per_call (physics := line_physics)
                    (bound_operator unit_bar unit_bar) mem dst src
                    unit_bar unit_bar eq_refl eq_refl));
      reflexivity.
Defined.

(** * Further properties of the operator *)

(** ** The constraint loop, in full *)

Lemma add_constrained_entry_length (src dst dst' : Vector) (k : nat) :
  add_constrained_entry src dst k = Ok dst' → length dst' = length dst.
Proof.
  intros (d & s & _ & _ & ->)%add_constrained_entry_Ok. apply length_insert.
Qed.

Lemma constraint_loop_length (src : Vector) (l : list nat) (dst dst' : Vector) :
  for_each (add_constrained_entry src) l dst = Ok dst' →
  length dst' = length dst.
Proof.
  revert dst. induction l as [|k l IH]; intros dst Hrun.
  - now injection Hrun as <-.
  - cbn [for_each] in Hrun. apply bind_Ok in Hrun as (dst1 & Hstep & Hrun).
    rewrite (IH _ Hrun). now apply add_constrained_entry_length in Hstep.
Qed.

(** The constraint loop runs to its end exactly when every listed index
    lies within both vectors. *)
Lemma constraint_loop_in_range (src : Vector) (l : list nat) (dst : Vector) :
  (∃ dst', for_each (add_constrained_entry src) l dst = Ok dst')
  ↔ Forall (λ k, k < length dst ∧ k < length src) l.
Proof.
  revert dst. induction l as [|k l IH]; intros dst.
  - split; [constructor|]. intros _. now exists dst.
  - cbn [for_each]. split.
    + intros (dst' & (dst1 & Hstep & Hrun)%bind_Ok).
      pose proof (add_constrained_entry_length _ _ _ _ Hstep) as Hlen.
      apply add_constrained_entry_Ok in Hstep as (d & s & Hd & Hs & _).
      constructor.
      * split; eapply lookup_lt_Some; eassumption.
      * rewrite <- Hlen. apply IH. now exists dst'.
    + intros [[Hd Hs] Hrest]%Forall_cons.
      destruct (lookup_lt_is_Some_2 dst k Hd) as [d Hdk].
      destruct (lookup_lt_is_Some_2 src k Hs) as [s Hsk].
      assert (Hstep : add_constrained_entry src dst k
                      = Ok (<[k := PrimFloat.add d s]> dst)).
      { unfold add_constrained_entry.
        rewrite (proj2 (Vector_at_Ok dst k d) Hdk). cbn.
        rewrite (proj2 (Vector_at_Ok src k s) Hsk). cbn.
        apply Vector_set_Ok. now split. }
      rewrite Hstep. cbn.
      apply IH. now rewrite length_insert.
Qed.

Lemma occurrences_cons (k k0 : nat) (l : list nat) :
  occurrences k (k0 :: l)
  = if decide (k0 = k) then S (occurrences k l) else occurrences k l.
Proof.
  unfold occurrences. rewrite filter_cons.
  destruct (decide (k0 = k)); reflexivity.
Qed.

Lemma iter_shift {A : Type} (f : A → A) (n : nat) (x : A) :
  Nat.iter n f (f x) = f (Nat.iter n f x).
Proof.
  induction n as [|n IH]; [reflexivity|].
  change (f (Nat.iter n f (f x)) = f (f (Nat.iter n f x))). now rewrite IH.
Qed.

(** Every entry after the constraint loop: [src(k)] has been added to
    [dst(k)] once for each time [k] is listed. *)
Lemma constraint_loop_entries (src : Vector) (l : list nat) (dst dst' : Vector)
    (k : nat) :
  for_each (add_constrained_entry src) l dst = Ok dst' →
  dst' !! k
  = Nat.iter (occurrences k l)
      (λ x, PrimFloat.add x (default 0%float (src !! k))) <$> dst !! k.
Proof.
  revert dst. induction l as [|k0 l IH]; intros dst Hrun.
  - injection Hrun as <-. cbn. now destruct (dst !! k).
  - cbn [for_each] in Hrun. apply bind_Ok in Hrun as (dst1 & Hstep & Hrun).
    apply add_constrained_entry_Ok in Hstep as (d & s & Hd & Hs & ->).
    rewrite (IH _ Hrun), occurrences_cons.
    destruct (decide (k0 = k)) as [->|Hne].
    + rewrite list_lookup_insert_eq by (eapply lookup_lt_Some; exact Hd).
      rewrite Hd, Hs. cbn [fmap option_fmap option_map default].
      f_equal. exact (iter_shift (λ x, PrimFloat.add x s) _ d).
    + now rewrite list_lookup_insert_ne by exact Hne.
Qed.

(** ** The operator action, end to end *)

(** After the check of the cell batch counts the call is the cell loop
    followed by the constraint loop. *)
Lemma vmult_add_after_cells `{physics : Physics} (op : NeoHookOperator)
    (mem : memory) (dst src : Vector) (cur ref : MatrixFree) :
  data_current op = Some cur → data_reference op = Some ref →
  n_macro_cells cur = n_macro_cells ref →
  vmult_add op mem dst src
  = after_cells ← local_apply_cell op mem dst src (0, n_macro_cells cur);
    for_each (add_constrained_entry src) (get_constrained_dofs cur)
      after_cells.
Proof.
  intros Hcur Href Hcells. unfold vmult_add. rewrite Hcur, Href. cbn.
  now rewrite (bool_decide_true (n_macro_cells cur = n_macro_cells ref))
    by exact Hcells.
Qed.

(** X1: once the cell loop of [vmult_add] has run, the call returns exactly
    when every constrained index lies within both the destination and the
    source, and the destination keeps its size; otherwise it fails with
    [ExcIndexRange]. *)
Theorem vmult_add_constraint_range `{physics : Physics} (op : NeoHookOperator)
    (mem : memory) (dst src after_cells : Vector) (cur ref : MatrixFree) :
  data_current op = Some cur → data_reference op = Some ref →
  n_macro_cells cur = n_macro_cells ref →
  local_apply_cell op mem dst src (0, n_macro_cells cur) = Ok after_cells →
  let in_range :=
    Forall (λ k, k < length after_cells ∧ k < length src)
      (get_constrained_dofs cur) in
  (in_range →
   ∃ dst', vmult_add op mem dst src = Ok dst'
           ∧ length dst' = length after_cells)
  ∧ (¬ in_range → vmult_add op mem dst src = Throw ExcIndexRange).
Proof.
  intros Hcur Href Hcells Hloop in_range.
  rewrite (vmult_add_after_cells op mem dst src cur ref) by assumption.
  rewrite Hloop. cbn. split.
  - intros Hin. apply constraint_loop_in_range in Hin as [dst' Hrun].
    exists dst'. split; [exact Hrun|]. now apply constraint_loop_length in Hrun.
  - intros Hout.
    destruct (for_each (add_constrained_entry src) (get_constrained_dofs cur)
                after_cells) as [dst'|e] eqn:Hrun.
    + exfalso. apply Hout, constraint_loop_in_range. now exists dst'.
    + now apply constraint_loop_Throw in Hrun as ->.
Qed.

(** The unit bar with a constrained index beyond its three nodes. *)
Lemma vmult_add_constraint_range_witness :
  let far_bar := bar 1 [1; 1]%float [0; 7] [0; 7] in
  let mem := memory_with [0; 0.5; 1.5]%float in
  vmult_add (physics := line_physics) (bound_operator far_bar far_bar) mem
    [9; 9; 9]%float [5; 1; 2]%float
  = Throw ExcIndexRange
  ∧ ∃ dst', vmult_add (physics := line_physics)
              (bound_operator unit_bar unit_bar) mem
              [9; 9; 9]%float [5; 1; 2]%float = Ok dst'
            ∧ length dst' = 3.
Proof.
  intros far_bar mem. split.
  - refine (proj2 (vmult_add_constraint_range (physics := line_physics)
                     (bound_operator far_bar far_bar) mem [9; 9; 9]%float
                     [5; 1; 2]%float [9; 9; 11]%float far_bar far_bar
                     eq_refl eq_refl eq_refl _) _).
    + vm_compute. reflexivity.
    + intros Hin. apply Forall_cons in Hin as [_ Hin].
      apply Forall_cons in Hin as [[Hlt _] _]. cbn in Hlt. lia.
  - refine (proj1 (vmult_add_constraint_range (physics := line_physics)
                     (bound_operator unit_bar unit_bar) mem [9; 9; 9]%float
                     [5; 1; 2]%float [9; 9; 11]%float unit_bar unit_bar
                     eq_refl eq_refl eq_refl _) _).
    + vm_compute. reflexivity.
    + repeat constructor.
Defined.

(** X2: every entry of the result of [vmult_add] is the entry the cell
    loop left there with [src(k)] added once for each time [k] is listed
    among the constrained indices; an index that is not listed keeps the
    entry of the cell loop. *)
Theorem vmult_add_entries `{physics : Physics} (op : NeoHookOperator)
    (mem : memory) (dst src dst' : Vector) (cur : MatrixFree) :
  data_current op = Some cur →
  vmult_add op mem dst src = Ok dst' →
  ∃ after_cells,
    local_apply_cell op mem dst src (0, n_macro_cells cur) = Ok after_cells
    ∧ length dst' = length after_cells
    ∧ ∀ k,
        dst' !! k
        = Nat.iter (occurrences k (get_constrained_dofs cur))
            (λ x, PrimFloat.add x (default 0%float (src !! k)))
          <$> after_cells !! k
        ∧ (k ∉ get_constrained_dofs cur → dst' !! k = after_cells !! k).
Proof.
  intros Hcur Hrun. unfold vmult_add in Hrun. rewrite Hcur in Hrun.
  cbn in Hrun.
  apply bind_Ok in Hrun as (ref & _ & Hrun).
  apply bind_Ok in Hrun as (_ & _ & Hrun).
  apply bind_Ok in Hrun as (after_cells & Hloop & Hrun).
  exists after_cells. split; [exact Hloop|].
  split; [now apply constraint_loop_length in Hrun|].
  intros k. split.
  - now apply constraint_loop_entries.
  - intros Hk. now apply (constraint_loop_other _ _ _ _ _ Hrun).
Qed.

(** The bar with its left end listed twice: [src(0) = 5] is added twice. *)
Lemma vmult_add_entries_witness :
  let twice_bar := bar 1 [1; 1]%float [0; 0] [0] in
  let op := bound_operator twice_bar twice_bar in
  let mem := memory_with [0; 0.5; 1.5]%float in
  vmult_add (physics := line_physics) op mem [9; 9; 9]%float [5; 1; 2]%float
  = Ok [19; 9; 11]%float
  ∧ ∃ after_cells,
      local_apply_cell (physics := line_physics) op mem [9; 9; 9]%float
        [5; 1; 2]%float (0, 1) = Ok after_cells
      ∧ length [19; 9; 11]%float = length after_cells
      ∧ ∀ k,
          [19; 9; 11]%float !! k
          = Nat.iter (occurrences k [0; 0])
              (λ x, PrimFloat.add x (default 0%float ([5; 1; 2]%float !! k)))
            <$> after_cells !! k
          ∧ (k ∉ [0; 0] → [19; 9; 11]%float !! k = after_cells !! k).
Proof.
  intros twice_bar op mem.
  assert (Hrun : vmult_add (physics := line_physics) op mem [9; 9; 9]%float
                   [5; 1; 2]%float = Ok [19; 9; 11]%float)
    by (vm_compute; reflexivity).
  split; [exact Hrun|].
  exact (vmult_add_entries (physics := line_physics) op mem [9; 9; 9]%float
           [5; 1; 2]%float [19; 9; 11]%float twice_bar eq_refl Hrun).
Defined.

(** X4: over contexts without cell batches [vmult_add] is the constraint
    loop alone, run on the destination as it was handed in; neither the
    material nor the displacement is looked at. *)
Theorem vmult_add_without_cells `{physics : Physics} (op : NeoHookOperator)
    (mem : memory) (dst src : Vector) (cur ref : MatrixFree) :
  data_current op = Some cur → data_reference op = Some ref →
  n_macro_cells cur = 0 → n_macro_cells ref = 0 →
  n_q_points cur = n_q_points ref →
  vmult_add op mem dst src
  = for_each (add_constrained_entry src) (get_constrained_dofs cur) dst.
Proof.
  intros Hcur Href Hcells Hcells' Hq.
  rewrite (vmult_add_checked op mem dst src cur ref) by congruence.
  now rewrite Hcells.
Qed.

(** A bar without cell batches, its material and displacement never set. *)
Lemma vmult_add_without_cells_witness :
  let idle_bar := bar 0 [1; 1]%float [0] [0] in
  let op := initialize idle_bar idle_bar 0 NeoHookOperator_ctor in
  material op = None
  ∧ vmult_add (physics := line_physics) op ∅ [9; 9; 9]%float [5; 1; 2]%float
    = Ok [14; 9; 9]%float.
Proof.
  intros idle_bar op. split; [reflexivity|].
  rewrite (vmult_add_without_cells (physics := line_physics) op ∅
             [9; 9; 9]%float [5; 1; 2]%float idle_bar idle_bar
             eq_refl eq_refl eq_refl eq_refl eq_refl).
  vm_compute. reflexivity.
Defined.

(** ** What the operator reads of its own state *)

Lemma same_binding_same_results `{physics : Physics}
    (op1 op2 : NeoHookOperator) (mem : memory) (dst src : Vector) :
  same_binding op1 op2 →
  vmult_add op1 mem dst src = vmult_add op2 mem dst src
  ∧ vmult op1 mem dst src = vmult op2 mem dst src
  ∧ compute_diagonal op1 mem = compute_diagonal op2 mem.
Proof.
  destruct op1 as [c1 r1 u1 m1 i1 d1 f1], op2 as [c2 r2 u2 m2 i2 d2 f2].
  unfold same_binding. cbn. intros (-> & -> & -> & ->).
  repeat split.
Qed.

(** X5: the operator action and the diagonal extraction read the contexts,
    the displacement pointer and the material, and nothing else of the
    operator: two states that agree on these act alike and compute the same
    diagonal, whatever their diagonal vectors and flags are. *)
Theorem action_reads_binding_only `{physics : Physics}
    (op1 op2 : NeoHookOperator) (mem : memory) (dst src : Vector) :
  same_binding op1 op2 →
  vmult_add op1 mem dst src = vmult_add op2 mem dst src
  ∧ vmult op1 mem dst src = vmult op2 mem dst src
  ∧ Tvmult op1 mem dst src = Tvmult op2 mem dst src
  ∧ compute_diagonal op1 mem = compute_diagonal op2 mem.
Proof.
  intros Hsame.
  destruct (same_binding_same_results op1 op2 mem dst src Hsame)
    as (Hadd & Hmult & Hdiag).
  repeat split; assumption.
Qed.

Lemma action_reads_binding_only_witness :
  let op1 := bound_operator unit_bar unit_bar in
  let op2 := bar_with_diagonal in
  let mem := memory_with [0; 0.5; 1.5]%float in
  same_binding op1 op2
  ∧ vmult (physics := line_physics) op1 mem [9; 9; 9]%float [5; 1; 2]%float
    = vmult (physics := line_physics) op2 mem [9; 9; 9]%float [5; 1; 2]%float.
Proof.
  intros op1 op2 mem.
  assert (Hsame : same_binding op1 op2) by (repeat split).
  split; [exact Hsame|].
  exact (proj1 (proj2 (action_reads_binding_only (physics := line_physics)
                         op1 op2 mem [9; 9; 9]%float [5; 1; 2]%float Hsame))).
Defined.

(** X6: computing the diagonal leaves the binding of the operator as it
    was, so the operator acts afterwards as before, and computing the
    diagonal once more gives the same state again. *)
Theorem compute_diagonal_keeps_action `{physics : Physics}
    (op op' : NeoHookOperator) (mem : memory) :
  compute_diagonal op mem = Ok op' →
  same_binding op op'
  ∧ (∀ dst src, vmult op' mem dst src = vmult op mem dst src)
  ∧ (∀ dst src, vmult_add op' mem dst src = vmult_add op mem dst src)
  ∧ compute_diagonal op' mem = Ok op'.
Proof.
  intros Hrun.
  assert (Hsame : same_binding op op').
  { apply compute_diagonal_Ok in Hrun as (cur & probed & fixed & _ & _ & _ & ->).
    repeat split. }
  split; [exact Hsame|].
  split; [|split].
  - intros dst src. symmetry.
    now apply (same_binding_same_results op op' mem dst src).
  - intros dst src. symmetry.
    now apply (same_binding_same_results op op' mem dst src).
  - rewrite <- Hrun. symmetry.
    now apply (same_binding_same_results op op' mem [] []).
Qed.

Lemma compute_diagonal_keeps_action_witness :
  let op := bound_operator unit_bar unit_bar in
  let mem := memory_with [0; 0.5; 1.5]%float in
  compute_diagonal (physics := line_physics) op mem = Ok bar_with_diagonal
  ∧ compute_diagonal (physics := line_physics) bar_with_diagonal mem
    = Ok bar_with_diagonal
  ∧ vmult (physics := line_physics) bar_with_diagonal mem [9; 9; 9]%float
      [5; 1; 2]%float
    = vmult (physics := line_physics) op mem [9; 9; 9]%float [5; 1; 2]%float.
Proof.
  intros op mem.
  destruct (compute_diagonal_keeps_action (physics := line_physics) op
              bar_with_diagonal mem compute_diagonal_unit_bar)
    as (_ & Hmult & _ & Hagain).
  split; [exact compute_diagonal_unit_bar|]. split; [exact Hagain|].
  apply Hmult.
Defined.

(** ** The diagonal extraction, end to end *)

Lemma fix_loop_length (l : list nat) (v v' : Vector) :
  for_each set_constrained_entry_to_one l v = Ok v' → length v' = length v.
Proof.
  revert v. induction l as [|k l IH]; intros v Hrun.
  - now injection Hrun as <-.
  - cbn [for_each] in Hrun. apply bind_Ok in Hrun as (v1 & Hset & Hrun).
    apply Vector_set_Ok in Hset as [_ ->].
    rewrite (IH _ Hrun). apply length_insert.
Qed.

(** The loop over the constrained entries runs to its end exactly when
    every listed index lies within the vector, and fails with
    [ExcIndexRange] otherwise. *)
Lemma fix_loop_in_range (l : list nat) (v : Vector) :
  (Forall (λ k, k < length v) l →
   ∃ v', for_each set_constrained_entry_to_one l v = Ok v')
  ∧ (¬ Forall (λ k, k < length v) l →
     for_each set_constrained_entry_to_one l v = Throw ExcIndexRange).
Proof.
  revert v. induction l as [|k l IH]; intros v.
  - split; [now exists v|]. intros Hout. exfalso. apply Hout. constructor.
  - cbn [for_each].
    destruct (decide (k < length v)) as [Hk|Hk].
    + assert (Hset : set_constrained_entry_to_one v k
                     = Ok (<[k := 1%float]> v))
        by (apply Vector_set_Ok; now split).
      rewrite Hset. cbn.
      destruct (IH (<[k := 1%float]> v)) as [Hin Hout].
      rewrite length_insert in Hin, Hout. split.
      * intros [_ Hrest]%Forall_cons. now apply Hin.
      * intros Hbad. apply Hout. intros Hrest. apply Hbad.
        now constructor.
    + assert (Hset : set_constrained_entry_to_one v k = Throw ExcIndexRange).
      { unfold set_constrained_entry_to_one, Vector_set.
        now destruct (decide (k < length v)). }
      rewrite Hset. cbn. split; [|reflexivity].
      intros [Hlt _]%Forall_cons. contradiction.
Qed.

(** X7: once the probing cell loop of [compute_diagonal] has run, the call
    returns exactly when every constrained index lies within the probed
    vector, and fails with [ExcIndexRange] otherwise. *)
Theorem compute_diagonal_constraint_range `{physics : Physics}
    (op : NeoHookOperator) (mem : memory) (probed : Vector)
    (cur : MatrixFree) :
  data_current op = Some cur →
  local_diagonal_cell (with_diagonals [] [] op) mem
    (initialize_dof_vector cur) (0, n_macro_cells cur) = Ok probed →
  let in_range :=
    Forall (λ k, k < length probed) (get_constrained_dofs cur) in
  (in_range → ∃ op', compute_diagonal op mem = Ok op')
  ∧ (¬ in_range → compute_diagonal op mem = Throw ExcIndexRange).
Proof.
  intros Hcur Hprobe in_range. unfold compute_diagonal.
  cbn [with_diagonals data_current]. rewrite Hcur. cbn. rewrite Hprobe. cbn.
  destruct (fix_loop_in_range (get_constrained_dofs cur) probed)
    as [Hin Hout].
  split.
  - intros Hok. destruct (Hin Hok) as [fixed ->]. cbn. now eexists.
  - intros Hbad. now rewrite (Hout Hbad).
Qed.

Lemma compute_diagonal_constraint_range_witness :
  let far_bar := bar 1 [1; 1]%float [0; 7] [0; 7] in
  let mem := memory_with [0; 0.5; 1.5]%float in
  compute_diagonal (physics := line_physics) (bound_operator far_bar far_bar)
    mem = Throw ExcIndexRange
  ∧ ∃ op', compute_diagonal (physics := line_physics)
             (bound_operator unit_bar unit_bar) mem = Ok op'.
Proof.
  intros far_bar mem. split.
  - refine (proj2 (compute_diagonal_constraint_range (physics := line_physics)
                     (bound_operator far_bar far_bar) mem [0; 4; 2]%float
                     far_bar eq_refl _) _).
    + vm_compute. reflexivity.
    + intros Hin. apply Forall_cons in Hin as [_ Hin].
      apply Forall_cons in Hin as [Hlt _]. cbn in Hlt. lia.
  - refine (proj1 (compute_diagonal_constraint_range (physics := line_physics)
                     (bound_operator unit_bar unit_bar) mem [0; 4; 2]%float
                     unit_bar eq_refl _) _).
    + vm_compute. reflexivity.
    + repeat constructor.
Defined.

(** X8: after [compute_diagonal] the diagonal has the size of the probed
    vector, and away from the constrained indices it holds the probed
    values unchanged. *)
Theorem compute_diagonal_keeps_probed `{physics : Physics}
    (op op' : NeoHookOperator) (mem : memory) (cur : MatrixFree) :
  compute_diagonal op mem = Ok op' →
  data_current op = Some cur →
  ∃ probed diagonal,
    local_diagonal_cell (with_diagonals [] [] op) mem
      (initialize_dof_vector cur) (0, n_macro_cells cur) = Ok probed
    ∧ diagonal_entries op' = Some diagonal
    ∧ length diagonal = length probed
    ∧ ∀ k, k ∉ get_constrained_dofs cur → diagonal !! k = probed !! k.
Proof.
  intros (cur' & probed & fixed & Hcur' & Hprobe & Hfix & ->)
    %compute_diagonal_Ok Hcur.
  rewrite Hcur in Hcur'. injection Hcur' as <-.
  exists probed, fixed. split; [exact Hprobe|]. split; [reflexivity|].
  split; [now apply fix_loop_length in Hfix|].
  now apply (constrained_entries_one _ _ _ Hfix).
Qed.

Lemma compute_diagonal_keeps_probed_witness :
  let op := bound_operator unit_bar_full_scatter unit_bar_full_scatter in
  let mem := memory_with [0; 0.5; 1.5]%float in
  compute_diagonal (physics := line_physics) op mem
  = Ok full_scatter_with_diagonal
  ∧ ∃ probed diagonal,
      local_diagonal_cell (physics := line_physics) (with_diagonals [] [] op)
        mem (initialize_dof_vector unit_bar_full_scatter)
        (0, n_macro_cells unit_bar_full_scatter) = Ok probed
      ∧ diagonal_entries full_scatter_with_diagonal = Some diagonal
      ∧ length diagonal = length probed
      ∧ ∀ k, k ∉ get_constrained_dofs unit_bar_full_scatter →
             diagonal !! k = probed !! k.
Proof.
  intros op mem.
  assert (Hrun : compute_diagonal (physics := line_physics) op mem
                 = Ok full_scatter_with_diagonal) by (vm_compute; reflexivity).
  split; [exact Hrun|].
  exact (compute_diagonal_keeps_probed (physics := line_physics) op
           full_scatter_with_diagonal mem unit_bar_full_scatter Hrun eq_refl).
Defined.

Lemma precondition_Jacobi_entries (op : NeoHookOperator)
    (inverse_diagonal dst src : Vector) (omega : number) :
  inverse_diagonal_entries op = Some inverse_diagonal →
  0 < length inverse_diagonal →
  length src = length inverse_diagonal →
  ∃ dst',
    precondition_Jacobi op dst src omega = Ok dst'
    ∧ ∀ i x d, src !! i = Some x → inverse_diagonal !! i = Some d →
        dst' !! i = Some (PrimFloat.mul (PrimFloat.mul x d) omega).
Proof.
  intros Hinv Hpos Hlen. unfold precondition_Jacobi, DiagonalMatrix_vmult.
  rewrite Hinv, bool_decide_true by exact Hpos. cbn.
  unfold Vector_scale.
  destruct (decide (length src = length inverse_diagonal)); [|contradiction].
  cbn. eexists. split; [reflexivity|].
  intros i x d Hx Hd. unfold Vector_times_eq.
  now rewrite list_lookup_fmap, lookup_zip_with, Hx, Hd.
Qed.

(** X9: after [compute_diagonal] the preconditioner is the identity on the
    constrained rows: there the diagonal accessor returns one, the inverse
    diagonal holds one, and [precondition_Jacobi] returns [src(k)] times
    one, times [omega]. *)
Theorem constrained_rows_are_identity `{physics : Physics}
    (op op' : NeoHookOperator) (mem : memory) (cur : MatrixFree) (k : nat) :
  compute_diagonal op mem = Ok op' →
  data_current op = Some cur →
  k ∈ get_constrained_dofs cur →
  el op' k k = Ok 1%float
  ∧ ∃ inverse_diagonal,
      inverse_diagonal_entries op' = Some inverse_diagonal
      ∧ inverse_diagonal !! k = Some 1%float
      ∧ ∀ dst src omega x,
          length src = length inverse_diagonal → src !! k = Some x →
          ∃ dst',
            precondition_Jacobi op' dst src omega = Ok dst'
            ∧ dst' !! k
              = Some (PrimFloat.mul (PrimFloat.mul x 1%float) omega).
Proof.
  intros (cur' & probed & fixed & Hcur' & _ & Hfix & ->)%compute_diagonal_Ok
    Hcur Hk.
  rewrite Hcur in Hcur'. injection Hcur' as <-.
  destruct (constrained_entries_one _ _ _ Hfix) as (Hone & _ & _).
  specialize (Hone k Hk).
  assert (Hinv : invert_diagonal fixed !! k = Some 1%float)
    by (rewrite invert_diagonal_lookup, Hone; reflexivity).
  split.
  - unfold el. rewrite bool_decide_true by reflexivity. cbn.
    now apply Vector_at_Ok.
  - exists (invert_diagonal fixed). split; [reflexivity|].
    split; [exact Hinv|].
    intros dst src omega x Hlen Hx.
    destruct (precondition_Jacobi_entries
                (mark_diagonal_available (with_computed_diagonal fixed op))
                (invert_diagonal fixed) dst src omega eq_refl)
      as (dst' & Hrun & Hentries).
    + apply lookup_lt_Some in Hinv. lia.
    + exact Hlen.
    + exists dst'. split; [exact Hrun|]. now apply Hentries.
Qed.

Lemma constrained_rows_are_identity_witness :
  let op := bound_operator unit_bar_full_scatter unit_bar_full_scatter in
  let mem := memory_with [0; 0.5; 1.5]%float in
  compute_diagonal (physics := line_physics) op mem
  = Ok full_scatter_with_diagonal
  ∧ el full_scatter_with_diagonal 0 0 = Ok 1%float
  ∧ precondition_Jacobi full_scatter_with_diagonal [] [8; 8; 8]%float 3%float
    = Ok [24; 6; 12]%float.
Proof.
  intros op mem.
  assert (Hrun : compute_diagonal (physics := line_physics) op mem
                 = Ok full_scatter_with_diagonal) by (vm_compute; reflexivity).
  destruct (constrained_rows_are_identity (physics := line_physics) op
              full_scatter_with_diagonal mem unit_bar_full_scatter 0 Hrun
              eq_refl (list_elem_of_here 0 []))
    as (Hel & _).
  split; [exact Hrun|]. split; [exact Hel|]. vm_compute. reflexivity.
Defined.

(** X11: over a context without cell batches [compute_diagonal] returns
    the diagonal that is one at the constrained indices and zero elsewhere,
    and an inverse diagonal of ones throughout: the zero entries are
    clamped, not inverted. *)
Theorem compute_diagonal_without_cells `{physics : Physics}
    (op : NeoHookOperator) (mem : memory) (cur ref : MatrixFree) :
  data_current op = Some cur → data_reference op = Some ref →
  n_macro_cells cur = 0 →
  Forall (λ k, k < dof_vector_size cur) (get_constrained_dofs cur) →
  ∃ op' diagonal,
    compute_diagonal op mem = Ok op'
    ∧ diagonal_entries op' = Some diagonal
    ∧ length diagonal = dof_vector_size cur
    ∧ (∀ i, i < dof_vector_size cur →
         diagonal !! i
         = Some (if decide (i ∈ get_constrained_dofs cur)
                 then 1%float else 0%float))
    ∧ inverse_diagonal_entries op'
      = Some (replicate (dof_vector_size cur) 1%float).
Proof.
  intros Hcur Href Hcells Hrange.
  assert (Hprobe : local_diagonal_cell (with_diagonals [] [] op) mem
                     (initialize_dof_vector cur) (0, n_macro_cells cur)
                   = Ok (initialize_dof_vector cur)).
  { unfold local_diagonal_cell.
    cbn [with_diagonals data_current data_reference].
    rewrite Hcur, Href, Hcells. reflexivity. }
  destruct (fix_loop_in_range (get_constrained_dofs cur)
              (initialize_dof_vector cur)) as [Hin _].
  destruct Hin as [fixed Hfix].
  { unfold initialize_dof_vector. now rewrite length_replicate. }
  pose proof (fix_loop_length _ _ _ Hfix) as Hlen.
  unfold initialize_dof_vector in Hlen. rewrite length_replicate in Hlen.
  destruct (constrained_entries_one _ _ _ Hfix) as (Hone & _ & Hother).
  assert (Hentries : ∀ i, i < dof_vector_size cur →
            fixed !! i = Some (if decide (i ∈ get_constrained_dofs cur)
                               then 1%float else 0%float)).
  { intros i Hi. destruct (decide (i ∈ get_constrained_dofs cur)) as [Hc|Hc].
    - now apply Hone.
    - rewrite (Hother i Hc). unfold initialize_dof_vector.
      now apply lookup_replicate_2. }
  exists (mark_diagonal_available (with_computed_diagonal fixed op)), fixed.
  split.
  { apply compute_diagonal_Ok. now exists cur, (initialize_dof_vector cur), fixed. }
  split; [reflexivity|]. split; [exact Hlen|]. split; [exact Hentries|].
  cbn. f_equal. apply list_eq. intros i.
  rewrite invert_diagonal_lookup.
  destruct (decide (i < dof_vector_size cur)) as [Hi|Hi].
  - rewrite (Hentries i Hi), lookup_replicate_2 by exact Hi.
    now destruct (decide (i ∈ get_constrained_dofs cur)).
  - rewrite (proj2 (lookup_ge_None fixed i)) by lia.
    symmetry. apply lookup_replicate_None. lia.
Qed.

Lemma compute_diagonal_without_cells_witness :
  let idle_bar := bar 0 [1; 1]%float [0] [0] in
  let op := initialize idle_bar idle_bar 0 NeoHookOperator_ctor in
  ∃ op' diagonal,
    compute_diagonal (physics := line_physics) op ∅ = Ok op'
    ∧ diagonal_entries op' = Some diagonal
    ∧ length diagonal = 3
    ∧ (∀ i, i < 3 →
         diagonal !! i = Some (if decide (i ∈ [0]) then 1%float else 0%float))
    ∧ inverse_diagonal_entries op' = Some [1; 1; 1]%float.
Proof.
  intros idle_bar op.
  apply (compute_diagonal_without_cells (physics := line_physics) op ∅
           idle_bar idle_bar eq_refl eq_refl eq_refl).
  repeat constructor.
Defined.

(** ** The life of the computed diagonal *)

(** X12: after [clear] the diagonal accessor, on the diagonal, and
    [precondition_Jacobi] both fail with [ExcNotInitialized], whatever the
    operator held before. *)
Theorem clear_invalidates_diagonal (op : NeoHookOperator) (row : nat)
    (dst src : Vector) (omega : number) :
  el (clear op) row row = Throw ExcNotInitialized
  ∧ precondition_Jacobi (clear op) dst src omega = Throw ExcNotInitialized.
Proof.
  split; [|reflexivity].
  unfold el. now rewrite bool_decide_true by reflexivity.
Qed.

(** X13: [initialize] and [set_material] keep the diagonal vectors and the
    flag: after rebinding the operator, the diagonal accessor and
    [precondition_Jacobi] answer from the diagonal computed before, exactly
    as they did before the rebinding. *)
Theorem rebinding_keeps_stale_diagonal (op : NeoHookOperator)
    (cur ref : MatrixFree) (u : nat) (mat : Material) (row col : nat)
    (dst src : Vector) (omega : number) :
  el (initialize cur ref u op) row col = el op row col
  ∧ el (set_material mat op) row col = el op row col
  ∧ precondition_Jacobi (initialize cur ref u op) dst src omega
    = precondition_Jacobi op dst src omega
  ∧ precondition_Jacobi (set_material mat op) dst src omega
    = precondition_Jacobi op dst src omega.
Proof. repeat split. Qed.

(** ** The probing loop *)

Lemma elem_of_local_indices (data : MatrixFree) (n : nat) :
  n ∈ local_indices data ↔ n < dofs_per_component data * n_components data.
Proof.
  unfold local_indices. rewrite list_elem_of_bind. split.
  - intros (i & (ic & ->%list_elem_of_singleton & Hic%elem_of_seq)
              %list_elem_of_bind & Hi%elem_of_seq).
    nia.
  - intros Hn.
    assert (Hpos : dofs_per_component data ≠ 0) by nia.
    exists (n mod dofs_per_component data). split.
    + apply list_elem_of_bind. exists (n / dofs_per_component data). split.
      * apply list_elem_of_singleton.
        pose proof (Nat.div_mod_eq n (dofs_per_component data)). lia.
      * apply elem_of_seq. split; [lia|]. cbn.
        apply Nat.Div0.div_lt_upper_bound. lia.
    + apply elem_of_seq. split; [lia|]. cbn.
      now apply Nat.mod_upper_bound.
Qed.

(** X14: the nested loops over [i] and [ic] of [local_diagonal_cell] visit
    every local index below [dofs_per_component * n_components], each of
    them once, and no other index. *)
Theorem local_indices_enumerate (data : MatrixFree) :
  NoDup (local_indices data)
  ∧ length (local_indices data)
    = dofs_per_component data * n_components data
  ∧ ∀ n, n ∈ local_indices data
         ↔ n < dofs_per_component data * n_components data.
Proof.
  assert (Hnd : NoDup (local_indices data)).
  { unfold local_indices. apply NoDup_bind.
    - intros i1 i2 n Hi1%elem_of_seq Hi2%elem_of_seq
        (ic1 & ->%list_elem_of_singleton & _)%list_elem_of_bind
        (ic2 & Heq%list_elem_of_singleton & _)%list_elem_of_bind.
      assert (Hmod : (i1 + ic1 * dofs_per_component data)
                       mod dofs_per_component data
                     = (i2 + ic2 * dofs_per_component data)
                       mod dofs_per_component data) by now rewrite Heq.
      rewrite !Nat.Div0.mod_add in Hmod.
      rewrite !Nat.mod_small in Hmod by lia. exact Hmod.
    - intros i Hi%elem_of_seq. apply NoDup_bind.
      + intros ic1 ic2 n _ _ ->%list_elem_of_singleton
          Heq%list_elem_of_singleton.
        apply (Nat.mul_cancel_r _ _ (dofs_per_component data)); lia.
      + intros ic _. apply NoDup_singleton.
      + apply NoDup_seq.
    - apply NoDup_seq. }
  split; [exact Hnd|]. split; [|apply elem_of_local_indices].
  assert (Hperm : local_indices data
                  ≡ₚ seq 0 (dofs_per_component data * n_components data)).
  { apply NoDup_Permutation; [exact Hnd|apply NoDup_seq|].
    intros n. rewrite elem_of_local_indices, elem_of_seq. lia. }
  now rewrite Hperm, length_seq.
Qed.

(** A loop of assignments [v[j] = g j] over the indices [l]. *)
Lemma foldl_insert_lookup {A : Type} (g : nat → A) (l : list nat)
    (v : list A) (i : nat) :
  foldl (λ v j, <[j := g j]> v) v l !! i
  = if decide (i ∈ l) then (λ _, g i) <$> v !! i else v !! i.
Proof.
  revert v. induction l as [|j l IH]; intros v.
  - cbn. destruct (decide (i ∈ [])) as [Hin|_]; [|reflexivity].
    now apply elem_of_nil in Hin.
  - cbn [foldl]. rewrite IH.
    destruct (decide (i = j)) as [->|Hne].
    + assert (Hj : <[j := g j]> v !! j = (λ _, g j) <$> v !! j).
      { destruct (v !! j) as [x|] eqn:Hx.
        - apply list_lookup_insert_eq. eapply lookup_lt_Some, Hx.
        - cbn. apply lookup_ge_None. rewrite length_insert.
          now apply lookup_ge_None. }
      rewrite Hj. destruct (decide (j ∈ j :: l)) as [_|Hout].
      * destruct (decide (j ∈ l)); [|reflexivity]. now destruct (v !! j).
      * exfalso. apply Hout, list_elem_of_here.
    + rewrite list_lookup_insert_ne by congruence.
      destruct (decide (i ∈ l)) as [Hin|Hout];
        destruct (decide (i ∈ j :: l)) as [Hin'|Hout']; try reflexivity.
      * exfalso. apply Hout'. now apply list_elem_of_further.
      * exfalso. apply elem_of_cons in Hin' as [->|Hin']; contradiction.
Qed.

Lemma foldl_insert_length {A : Type} (g : nat → A) (l : list nat)
    (v : list A) :
  length (foldl (λ v j, <[j := g j]> v) v l) = length v.
Proof.
  revert v. induction l as [|j l IH]; intros v; [reflexivity|].
  cbn [foldl]. rewrite IH. apply length_insert.
Qed.

(** Assigning every index of a list of [n] entries. *)
Lemma foldl_insert_all {A : Type} (g : nat → A) (l : list nat) (v : list A) :
  (∀ i, i < length v → i ∈ l) →
  foldl (λ v j, <[j := g j]> v) v l = g <$> seq 0 (length v).
Proof.
  intros Hall. apply list_eq. intros i.
  rewrite foldl_insert_lookup, list_lookup_fmap.
  destruct (decide (i < length v)) as [Hi|Hi].
  - rewrite lookup_seq_lt by exact Hi.
    destruct (decide (i ∈ l)) as [_|Hout]; [|now specialize (Hall i Hi)].
    destruct (lookup_lt_is_Some_2 v i Hi) as [x ->]. reflexivity.
  - rewrite lookup_seq_ge by lia.
    rewrite (proj2 (lookup_ge_None v i)) by lia. now destruct (decide (i ∈ l)).
Qed.

Lemma foldl_set_dof_value (g : nat → VectorizedArray) (l : list nat)
    (phi : FEEvaluation) :
  foldl (λ phi j, set_dof_value j (g j) phi) phi l
  = set_values_dofs (foldl (λ v j, <[j := g j]> v) (values_dofs phi) l) phi.
Proof.
  revert phi. induction l as [|j l IH]; intros phi.
  - now destruct phi.
  - cbn [foldl]. rewrite IH. reflexivity.
Qed.

Lemma zeroing_loop `{physics : Physics} (z : VectorizedArray) (l : list nat)
    (phis : evaluators) :
  foldl (λ phis ind_j,
           {| phi_current := set_dof_value ind_j z (phi_current phis);
              phi_current_s := set_dof_value ind_j z (phi_current_s phis);
              phi_reference := phi_reference phis |})
    phis l
  = {| phi_current :=
         foldl (λ phi j, set_dof_value j z phi) (phi_current phis) l;
       phi_current_s :=
         foldl (λ phi j, set_dof_value j z phi) (phi_current_s phis) l;
       phi_reference := phi_reference phis |}.
Proof.
  revert phis. induction l as [|j l IH]; intros phis.
  - now destruct phis.
  - cbn [foldl]. now rewrite IH.
Qed.

(** X15: each probe of [local_diagonal_cell] runs the kernel on the unit
    vector of its index: whatever local values the evaluators held, both
    current evaluators enter [do_operation_on_cell] with zero everywhere and
    one at [ind_i], and the reference evaluator as it was. *)
Theorem probe_direction_is_unit `{physics : Physics} (phis : evaluators)
    (ind_i : nat) :
  let data := matrix_info (phi_current phis) in
  let n := dofs_per_component data * n_components data in
  let unit_vector :=
    <[ind_i := make_vectorized_array 1%float]>
      (replicate n (make_vectorized_array 0%float)) in
  length (values_dofs (phi_current phis)) = n →
  length (values_dofs (phi_current_s phis)) = n →
  values_dofs (phi_current (probe_direction phis ind_i)) = unit_vector
  ∧ values_dofs (phi_current_s (probe_direction phis ind_i)) = unit_vector
  ∧ phi_reference (probe_direction phis ind_i) = phi_reference phis
  ∧ ∀ op local_diagonal_vector,
      probe op (phis, local_diagonal_vector) ind_i
      = (phis' ← do_operation_on_cell op (probe_direction phis ind_i);
         Ok (phis',
             <[ind_i := VectorizedArray_add
                          (dof_value (phi_current phis') ind_i)
                          (dof_value (phi_current_s phis') ind_i)]>
               local_diagonal_vector)).
Proof.
  intros data n unit_vector Hlen Hlen_s.
  assert (Hzero : ∀ v : list VectorizedArray, length v = n →
            foldl (λ v j, <[j := make_vectorized_array 0%float]> v) v
              (local_indices data)
            = replicate n (make_vectorized_array 0%float)).
  { intros v Hv.
    rewrite (foldl_insert_all (λ _, make_vectorized_array 0%float)).
    - rewrite Hv. apply list_eq. intros i.
      rewrite list_lookup_fmap.
      destruct (decide (i < n)) as [Hi|Hi].
      + now rewrite lookup_seq_lt, lookup_replicate_2 by exact Hi.
      + rewrite lookup_seq_ge by lia. symmetry.
        apply lookup_replicate_None. lia.
    - intros i Hi. apply elem_of_local_indices. now rewrite Hv in Hi. }
  assert (Hkernel : ∀ op local_diagonal_vector,
            probe op (phis, local_diagonal_vector) ind_i
            = (phis' ← do_operation_on_cell op (probe_direction phis ind_i);
               Ok (phis',
                   <[ind_i := VectorizedArray_add
                                (dof_value (phi_current phis') ind_i)
                                (dof_value (phi_current_s phis') ind_i)]>
                     local_diagonal_vector))) by reflexivity.
  refine (conj _ (conj _ (conj _ Hkernel)));
    unfold probe_direction; fold data; rewrite zeroing_loop; cbn;
    rewrite ?(foldl_set_dof_value (λ _, make_vectorized_array 0%float)); cbn;
    rewrite ?(Hzero _ Hlen), ?(Hzero _ Hlen_s); reflexivity.
Qed.

Lemma probe_direction_is_unit_witness :
  let phis :=
    {| phi_current := read_dof_values [5; 1; 2]%float (FEEvaluation_ctor unit_bar);
       phi_current_s :=
         read_dof_values [5; 1; 2]%float (FEEvaluation_ctor unit_bar);
       phi_reference :=
         read_dof_values_plain [5; 1; 2]%float (FEEvaluation_ctor unit_bar) |} in
  values_dofs (phi_current phis) = [[0; 1]; [1; 2]]%float
  ∧ values_dofs (phi_current (probe_direction (physics := line_physics) phis 1))
    = [[0; 0]; [1; 1]]%float.
Proof.
  intros phis. split; [reflexivity|].
  rewrite (proj1 (probe_direction_is_unit (physics := line_physics) phis 1
                    eq_refl eq_refl)).
  reflexivity.
Defined.

(** ** What the kernel leaves alone *)

Lemma same_cell_refl (phi : FEEvaluation) : same_cell phi phi.
Proof. now split. Qed.

Lemma same_cell_trans (phi1 phi2 phi3 : FEEvaluation) :
  same_cell phi1 phi2 → same_cell phi2 phi3 → same_cell phi1 phi3.
Proof. intros [H1 H2] [H3 H4]. split; congruence. Qed.

Lemma quadrature_loop_frame `{physics : Physics} (mat : option Material)
    (l : list nat) (phis phis' : evaluators) :
  for_each (quadrature_point mat) l phis = Ok phis' →
  same_cell (phi_current phis) (phi_current phis')
  ∧ same_cell (phi_current_s phis) (phi_current_s phis')
  ∧ values_dofs (phi_current phis') = values_dofs (phi_current phis)
  ∧ values_dofs (phi_current_s phis') = values_dofs (phi_current_s phis)
  ∧ phi_reference phis' = phi_reference phis.
Proof.
  revert phis. induction l as [|q l IH]; intros phis Hrun.
  - injection Hrun as <-. repeat split.
  - cbn [for_each] in Hrun. apply bind_Ok in Hrun as (phis1 & Hstep & Hrun).
    unfold quadrature_point in Hstep.
    apply bind_Ok in Hstep as (m & _ & Hstep).
    destruct (contributions_at m phis q) as [material_part geometric_part].
    injection Hstep as <-.
    destruct (IH _ Hrun) as (Hc & Hs & Hvc & Hvs & Href). cbn in *.
    repeat split; try apply Hc; try apply Hs; assumption.
Qed.

(** X16: [do_operation_on_cell] keeps every evaluator bound to its context
    and cell, and treats the reference evaluator as read-only input: its
    local values are as before and its quadrature data are the gradients
    evaluated from them; nothing is submitted to it or integrated in it. *)
Theorem kernel_keeps_evaluators_bound `{physics : Physics}
    (op : NeoHookOperator) (phis phis' : evaluators) :
  do_operation_on_cell op phis = Ok phis' →
  same_cell (phi_current phis) (phi_current phis')
  ∧ same_cell (phi_current_s phis) (phi_current_s phis')
  ∧ phi_reference phis' = evaluate (phi_reference phis).
Proof.
  unfold do_operation_on_cell.
  intros (phis1 & Hloop & [= <-])%bind_Ok.
  apply quadrature_loop_frame in Hloop as (Hc & Hs & _ & _ & Href).
  cbn in *. split; [|split].
  - destruct Hc as [Hm Hcell]. split; [exact Hm|exact Hcell].
  - destruct Hs as [Hm Hcell]. split; [exact Hm|exact Hcell].
  - exact Href.
Qed.

Lemma kernel_keeps_evaluators_bound_witness :
  let phis :=
    {| phi_current := read_dof_values [5; 1; 2]%float (FEEvaluation_ctor unit_bar);
       phi_current_s :=
         read_dof_values [5; 1; 2]%float (FEEvaluation_ctor unit_bar);
       phi_reference :=
         read_dof_values_plain [0; 0.5; 1.5]%float
           (FEEvaluation_ctor unit_bar) |} in
  ∃ phis',
    do_operation_on_cell (physics := line_physics)
      (bound_operator unit_bar unit_bar) phis = Ok phis'
    ∧ values_dofs (phi_reference phis') = [[0; 0.5]; [0.5; 1.5]]%float
    ∧ same_cell (phi_current phis) (phi_current phis').
Proof.
  intros phis.
  destruct (do_operation_on_cell (physics := line_physics)
              (bound_operator unit_bar unit_bar) phis) as [phis'|e] eqn:Hrun;
    [|vm_compute in Hrun; discriminate Hrun].
  exists phis'. split; [reflexivity|].
  destruct (kernel_keeps_evaluators_bound (physics := line_physics) _ _ _ Hrun)
    as (Hc & _ & Href).
  split; [|exact Hc]. rewrite Href. reflexivity.
Defined.

Lemma probe_frame `{physics : Physics} (op : NeoHookOperator)
    (st st' : probe_state) (ind_i : nat) :
  probe op st ind_i = Ok st' →
  same_cell (phi_current st.1) (phi_current st'.1)
  ∧ length st'.2 = length st.2.
Proof.
  destruct st as [phis ldv], st' as [phis' ldv']. unfold probe.
  intros (phis1 & Hrun & [= <- <-])%bind_Ok.
  unfold do_operation_on_cell in Hrun.
  apply bind_Ok in Hrun as (phis2 & Hloop & [= <-]).
  apply quadrature_loop_frame in Hloop as ([Hm Hcell] & _).
  cbn in *. rewrite zeroing_loop in Hm, Hcell. cbn in Hm, Hcell.
  rewrite foldl_set_dof_value in Hm, Hcell.
  split; [split; assumption|apply length_insert].
Qed.

Lemma probe_loop_frame `{physics : Physics} (op : NeoHookOperator)
    (l : list nat) (st st' : probe_state) :
  for_each (probe op) l st = Ok st' →
  same_cell (phi_current st.1) (phi_current st'.1)
  ∧ length st'.2 = length st.2.
Proof.
  revert st. induction l as [|i l IH]; intros st Hrun.
  - injection Hrun as <-. split; [apply same_cell_refl|reflexivity].
  - cbn [for_each] in Hrun. apply bind_Ok in Hrun as (st1 & Hstep & Hrun).
    apply probe_frame in Hstep as [Hc1 Hl1].
    apply IH in Hrun as [Hc Hl]. split; [|congruence].
    now apply (same_cell_trans _ _ _ Hc1).
Qed.

(** X17: on each cell [local_diagonal_cell] scatters the vector of the
    probed local diagonal entries, and nothing else: provided the local
    buffer of the evaluator has its [dofs_per_component * n_components]
    entries, the write-back loop replaces all of it by
    [local_diagonal_vector] before [distribute_local_to_global]. *)
Theorem diagonal_on_cell_scatters_local_diagonal `{physics : Physics}
    (op : NeoHookOperator) (mem : memory) (u dst : Vector)
    (phis probes : evaluators) (c : nat)
    (local_diagonal_vector : list VectorizedArray) :
  let data := matrix_info (phi_current phis) in
  let n := dofs_per_component data * n_components data in
  let start :=
    {| phi_current := read_dof_values u (reinit c (phi_current phis));
       phi_current_s := read_dof_values u (reinit c (phi_current_s phis));
       phi_reference :=
         read_dof_values_plain u (reinit c (phi_reference phis)) |} in
  displacement_vector op mem = Ok u →
  for_each (probe op) (local_indices data)
    (start, replicate n (make_vectorized_array 0%float))
  = Ok (probes, local_diagonal_vector) →
  length (values_dofs (phi_current probes)) = n →
  length local_diagonal_vector = n
  ∧ diagonal_on_cell op mem (dst, phis) c
    = Ok (scatter_add data c local_diagonal_vector dst,
          {| phi_current :=
               set_values_dofs local_diagonal_vector (phi_current probes);
             phi_current_s := phi_current_s probes;
             phi_reference := phi_reference probes |}).
Proof.
  intros data n start Hu Hloop Hbuf.
  pose proof (probe_loop_frame _ _ _ _ Hloop) as [[Hm Hcell] Hlen].
  cbn in Hm, Hcell, Hlen. rewrite length_replicate in Hlen.
  split; [exact Hlen|].
  unfold diagonal_on_cell. rewrite Hu. cbn.
  fold data. fold n. fold start. rewrite Hloop. cbn.
  rewrite (foldl_set_dof_value
             (λ ind_i, default [] (local_diagonal_vector !! ind_i))).
  rewrite foldl_insert_all.
  - assert (Hall : (λ ind_i, default [] (local_diagonal_vector !! ind_i))
                     <$> seq 0 (length (values_dofs (phi_current probes)))
                   = local_diagonal_vector).
    { rewrite Hbuf, <- Hlen. apply list_eq. intros i.
      rewrite list_lookup_fmap.
      destruct (decide (i < length local_diagonal_vector)) as [Hi|Hi].
      - rewrite lookup_seq_lt by exact Hi.
        destruct (lookup_lt_is_Some_2 local_diagonal_vector i Hi) as [x Hx].
        cbn. now rewrite Hx.
      - rewrite lookup_seq_ge by lia. symmetry. apply lookup_ge_None. lia. }
    rewrite Hall. unfold distribute_local_to_global. cbn.
    now rewrite Hm, Hcell.
  - intros i Hi. apply elem_of_local_indices. fold data. fold n. lia.
Qed.

Lemma diagonal_on_cell_scatters_local_diagonal_witness :
  let op := bound_operator unit_bar unit_bar in
  let mem := memory_with [0; 0.5; 1.5]%float in
  let phis := fresh_evaluators unit_bar unit_bar in
  ∃ probes st,
    length [[2; 2]; [2; 2]]%float = 2
    ∧ diagonal_on_cell (physics := line_physics) op mem ([0; 0; 0]%float, phis)
        0 = Ok st
    ∧ st.1 = scatter_add unit_bar 0 [[2; 2]; [2; 2]]%float [0; 0; 0]%float
    ∧ st.1 = [0; 4; 2]%float
    ∧ values_dofs (phi_current st.2) = [[2; 2]; [2; 2]]%float
    ∧ phi_reference st.2 = phi_reference probes.
Proof.
  intros op mem phis.
  destruct (for_each (probe (physics := line_physics) op)
              (local_indices unit_bar)
              ({| phi_current :=
                    read_dof_values [0; 0.5; 1.5]%float
                      (reinit 0 (phi_current phis));
                  phi_current_s :=
                    read_dof_values [0; 0.5; 1.5]%float
                      (reinit 0 (phi_current_s phis));
                  phi_reference :=
                    read_dof_values_plain [0; 0.5; 1.5]%float
                      (reinit 0 (phi_reference phis)) |},
               replicate 2 (make_vectorized_array (physics := line_physics)
                              0%float)))
    as [[probes ldv]|e] eqn:Hloop; [|vm_compute in Hloop; discriminate Hloop].
  assert (Hldv : ldv = [[2; 2]; [2; 2]]%float).
  { vm_compute in Hloop. now injection Hloop as _ <-. }
  assert (Hbuf : length (values_dofs (phi_current probes)) = 2).
  { vm_compute in Hloop. now injection Hloop as <- _. }
  subst ldv.
  destruct (diagonal_on_cell_scatters_local_diagonal (physics := line_physics)
              op mem [0; 0.5; 1.5]%float [0; 0; 0]%float phis probes 0
              [[2; 2]; [2; 2]]%float eq_refl Hloop Hbuf) as [Hlen Hrun].
  exists probes. eexists. split; [exact Hlen|]. split; [exact Hrun|].
  repeat split.
Defined.

(** ** Splitting the cell loops *)

Lemma for_each_app {A S : Type} (body : S → A → outcome S) (l1 l2 : list A)
    (s : S) :
  for_each body (l1 ++ l2) s = s1 ← for_each body l1 s; for_each body l2 s1.
Proof.
  revert s. induction l1 as [|x l1 IH]; intros s; [reflexivity|].
  cbn [for_each app]. destruct (body s x) as [s1|e]; [|reflexivity].
  cbn. apply IH.
Qed.

Lemma seq_split (a b c : nat) :
  a ≤ b → b ≤ c → seq a (c - a) = seq a (b - a) ++ seq b (c - b).
Proof.
  intros Hab Hbc. replace (c - a) with ((b - a) + (c - b)) by lia.
  rewrite seq_app. do 2 f_equal. lia.
Qed.

Lemma bound_alike_refl `{physics : Physics} (phis : evaluators) :
  bound_alike phis phis.
Proof. now repeat split. Qed.

Lemma bound_alike_trans `{physics : Physics} (phis1 phis2 phis3 : evaluators) :
  bound_alike phis1 phis2 → bound_alike phis2 phis3 → bound_alike phis1 phis3.
Proof.
  intros (H1 & H2 & H3) (H4 & H5 & H6). repeat split; congruence.
Qed.

Lemma do_operation_on_cell_bound `{physics : Physics} (op : NeoHookOperator)
    (phis phis' : evaluators) :
  do_operation_on_cell op phis = Ok phis' → bound_alike phis phis'.
Proof.
  unfold do_operation_on_cell.
  intros (phis1 & Hloop & [= <-])%bind_Ok.
  apply quadrature_loop_frame in Hloop as ([Hc _] & [Hs _] & _ & _ & Href).
  cbn in *. repeat split; try assumption. now rewrite Href.
Qed.

(** A loop over cells whose body starts every cell afresh, so that only
    the contexts of the evaluators matter to it, can be cut in two. *)
Lemma cell_loop_split `{physics : Physics}
    (body : Vector * evaluators → nat → outcome (Vector * evaluators))
    (l1 l2 : list nat) (dst : Vector) (phis : evaluators) :
  (∀ dst phis1 phis2 c,
     bound_alike phis1 phis2 →
     alike_results (body (dst, phis1) c) (body (dst, phis2) c)) →
  (∀ st c st', body st c = Ok st' → bound_alike st.2 st'.2) →
  (st ← for_each body (l1 ++ l2) (dst, phis); Ok st.1)
  = (st1 ← for_each body l1 (dst, phis);
     st ← for_each body l2 (st1.1, phis); Ok st.1).
Proof.
  intros Hforget Hkeep.
  assert (Hloop_keep : ∀ l st st',
            for_each body l st = Ok st' → bound_alike st.2 st'.2).
  { induction l as [|c l IH]; intros st st' Hrun.
    - injection Hrun as <-. apply bound_alike_refl.
    - cbn [for_each] in Hrun. apply bind_Ok in Hrun as (st1 & Hstep & Hrun).
      eapply bound_alike_trans; [eapply Hkeep, Hstep|eapply IH, Hrun]. }
  assert (Hloop_forget : ∀ l dst phis1 phis2,
            bound_alike phis1 phis2 →
            (st ← for_each body l (dst, phis1); Ok st.1)
            = (st ← for_each body l (dst, phis2); Ok st.1)).
  { induction l as [|c l IH]; intros dst0 phis1 phis2 Halike; [reflexivity|].
    cbn [for_each]. specialize (Hforget dst0 phis1 phis2 c Halike).
    unfold alike_results in Hforget.
    destruct (body (dst0, phis1) c) as [[d1 p1]|e1],
      (body (dst0, phis2) c) as [[d2 p2]|e2]; try contradiction; cbn in *.
    - destruct Hforget as [-> Hp]. now apply IH.
    - now rewrite Hforget. }
  rewrite for_each_app.
  destruct (for_each body l1 (dst, phis)) as [[dst1 phis1]|e] eqn:Hrun;
    [|reflexivity].
  cbn. apply Hloop_forget.
  apply Hloop_keep in Hrun. cbn in Hrun.
  destruct Hrun as (H1 & H2 & H3). repeat split; congruence.
Qed.

Lemma alike_results_refl `{physics : Physics}
    (r : outcome (Vector * evaluators)) :
  alike_results r r.
Proof.
  destruct r as [[d p]|e]; cbn; [|reflexivity].
  split; [reflexivity|apply bound_alike_refl].
Qed.

Lemma apply_on_cell_forgets `{physics : Physics} (op : NeoHookOperator)
    (mem : memory) (src dst : Vector) (phis1 phis2 : evaluators) (c : nat) :
  bound_alike phis1 phis2 →
  apply_on_cell op mem src (dst, phis1) c
  = apply_on_cell op mem src (dst, phis2) c.
Proof.
  destruct phis1 as [[m1 c1 v1 g1] [m2 c2 v2 g2] [m3 c3 v3 g3]].
  destruct phis2 as [[m1' c1' v1' g1'] [m2' c2' v2' g2'] [m3' c3' v3' g3']].
  unfold bound_alike. cbn. intros (-> & -> & ->). reflexivity.
Qed.

Lemma apply_on_cell_bound `{physics : Physics} (op : NeoHookOperator)
    (mem : memory) (src : Vector) (st st' : Vector * evaluators) (c : nat) :
  apply_on_cell op mem src st c = Ok st' → bound_alike st.2 st'.2.
Proof.
  destruct st as [dst phis]. unfold apply_on_cell.
  intros (u & _ & Hrun)%bind_Ok.
  apply bind_Ok in Hrun as (phis' & Hop & [= <-]).
  apply do_operation_on_cell_bound in Hop. exact Hop.
Qed.

(** X18: the cell loop of the operator action can be cut at any cell
    batch: running [local_apply_cell] over the batches from [a] to [b] and
    then, on its result, over those from [b] to [c] gives what one run from
    [a] to [c] gives. *)
Theorem local_apply_cell_split `{physics : Physics} (op : NeoHookOperator)
    (mem : memory) (dst src : Vector) (a b c : nat) :
  a ≤ b → b ≤ c →
  local_apply_cell op mem dst src (a, c)
  = (mid ← local_apply_cell op mem dst src (a, b);
     local_apply_cell op mem mid src (b, c)).
Proof.
  intros Hab Hbc. unfold local_apply_cell.
  destruct (deref (data_current op)) as [cur|e]; [|reflexivity]. cbn.
  destruct (deref (data_reference op)) as [ref|e]; [|reflexivity]. cbn.
  destruct (Assert _ _) as [[]|e]; [|reflexivity]. cbn.
  rewrite (seq_split a b c Hab Hbc).
  rewrite (cell_loop_split (apply_on_cell op mem src)).
  - destruct (for_each (apply_on_cell op mem src) (seq a (b - a)) _)
      as [[dst1 phis1]|e]; reflexivity.
  - intros dst0 phis1 phis2 c0 Halike.
    rewrite (apply_on_cell_forgets op mem src dst0 phis1 phis2 c0 Halike).
    apply alike_results_refl.
  - intros st c0 st'. apply apply_on_cell_bound.
Qed.

Lemma local_apply_cell_split_witness :
  let two_batches := bar 2 [1; 1]%float [0] [0] in
  let op := bound_operator two_batches two_batches in
  let mem := memory_with [0; 0.5; 1.5]%float in
  0 ≤ 1 ∧ 1 ≤ 2
  ∧ local_apply_cell (physics := line_physics) op mem [9; 9; 9]%float
      [5; 1; 2]%float (0, 2)
    = (mid ← local_apply_cell (physics := line_physics) op mem [9; 9; 9]%float
               [5; 1; 2]%float (0, 1);
       local_apply_cell (physics := line_physics) op mem mid [5; 1; 2]%float
         (1, 2)).
Proof.
  intros two_batches op mem.
  assert (H01 : 0 ≤ 1) by lia. assert (H12 : 1 ≤ 2) by lia.
  split; [exact H01|]. split; [exact H12|].
  exact (local_apply_cell_split (physics := line_physics) op mem
           [9; 9; 9]%float [5; 1; 2]%float 0 1 2 H01 H12).
Defined.

Lemma probe_bound `{physics : Physics} (op : NeoHookOperator)
    (st st' : probe_state) (ind_i : nat) :
  probe op st ind_i = Ok st' → bound_alike st.1 st'.1.
Proof.
  destruct st as [phis ldv], st' as [phis' ldv']. unfold probe.
  intros (phis1 & Hrun & [= <- <-])%bind_Ok.
  apply do_operation_on_cell_bound in Hrun as (Hc & Hs & Href).
  cbn in *. rewrite zeroing_loop in Hc, Hs, Href. cbn in Hc, Hs, Href.
  rewrite foldl_set_dof_value in Hc, Hs.
  repeat split; assumption.
Qed.

Lemma probe_loop_bound `{physics : Physics} (op : NeoHookOperator)
    (l : list nat) (st st' : probe_state) :
  for_each (probe op) l st = Ok st' → bound_alike st.1 st'.1.
Proof.
  revert st. induction l as [|i l IH]; intros st Hrun.
  - injection Hrun as <-. apply bound_alike_refl.
  - cbn [for_each] in Hrun. apply bind_Ok in Hrun as (st1 & Hstep & Hrun).
    eapply bound_alike_trans; [eapply probe_bound, Hstep|eapply IH, Hrun].
Qed.

(** The kernel evaluates all three evaluators first: what their
    quadrature-point buffers held on entry is of no consequence. *)
Lemma do_operation_on_cell_fresh_buffers `{physics : Physics}
    (op : NeoHookOperator) (phis : evaluators) :
  do_operation_on_cell op phis
  = do_operation_on_cell op (without_quadrature_data phis).
Proof. now destruct phis as [[m1 c1 v1 g1] [m2 c2 v2 g2] [m3 c3 v3 g3]]. Qed.

Lemma probe_fresh_buffers `{physics : Physics} (op : NeoHookOperator)
    (phis : evaluators) (local_diagonal_vector : list VectorizedArray)
    (ind_i : nat) :
  probe op (phis, local_diagonal_vector) ind_i
  = probe op (without_quadrature_data phis, local_diagonal_vector) ind_i.
Proof.
  change (probe op (phis, local_diagonal_vector) ind_i)
    with (phis' ← do_operation_on_cell op (probe_direction phis ind_i);
          Ok (phis',
              <[ind_i := VectorizedArray_add
                           (dof_value (phi_current phis') ind_i)
                           (dof_value (phi_current_s phis') ind_i)]>
                local_diagonal_vector)).
  change (probe op (without_quadrature_data phis, local_diagonal_vector) ind_i)
    with (phis' ← do_operation_on_cell op
                    (probe_direction (without_quadrature_data phis) ind_i);
          Ok (phis',
              <[ind_i := VectorizedArray_add
                           (dof_value (phi_current phis') ind_i)
                           (dof_value (phi_current_s phis') ind_i)]>
                local_diagonal_vector)).
  rewrite (do_operation_on_cell_fresh_buffers op (probe_direction phis ind_i)).
  rewrite (do_operation_on_cell_fresh_buffers op
             (probe_direction (without_quadrature_data phis) ind_i)).
  assert (Hsame : without_quadrature_data (probe_direction phis ind_i)
                  = without_quadrature_data
                      (probe_direction (without_quadrature_data phis) ind_i)).
  { unfold probe_direction. rewrite !zeroing_loop. cbn.
    rewrite !foldl_set_dof_value.
    now destruct phis as [[m1 c1 v1 g1] [m2 c2 v2 g2] [m3 c3 v3 g3]]. }
  now rewrite Hsame.
Qed.

Lemma probe_loop_fresh_buffers `{physics : Physics} (op : NeoHookOperator)
    (l : list nat) (phis : evaluators)
    (local_diagonal_vector : list VectorizedArray) :
  l ≠ [] →
  for_each (probe op) l (phis, local_diagonal_vector)
  = for_each (probe op) l (without_quadrature_data phis, local_diagonal_vector).
Proof.
  destruct l as [|i l]; [contradiction|]. intros _.
  cbn [for_each]. now rewrite probe_fresh_buffers.
Qed.

Lemma diagonal_on_cell_forgets `{physics : Physics} (op : NeoHookOperator)
    (mem : memory) (dst : Vector) (phis1 phis2 : evaluators) (c : nat) :
  bound_alike phis1 phis2 →
  alike_results (diagonal_on_cell op mem (dst, phis1) c)
    (diagonal_on_cell op mem (dst, phis2) c).
Proof.
  destruct phis1 as [[m1 c1 v1 g1] [m2 c2 v2 g2] [m3 c3 v3 g3]].
  destruct phis2 as [[m1' c1' v1' g1'] [m2' c2' v2' g2'] [m3' c3' v3' g3']].
  unfold bound_alike. cbn. intros (-> & -> & ->).
  unfold diagonal_on_cell.
  destruct (displacement_vector op mem) as [u|e]; [|reflexivity].
  cbn [mbind outcome_bind]. cbv zeta.
  destruct (decide (local_indices m1 = [])) as [Hnone|Hsome].
  - cbn. rewrite Hnone. cbn. repeat split.
  - cbn [phi_current matrix_info reinit read_dof_values set_values_dofs].
    rewrite (probe_loop_fresh_buffers op (local_indices m1) _ _ Hsome).
    rewrite (probe_loop_fresh_buffers op (local_indices m1)
               {| phi_current := read_dof_values u _ |} _ Hsome).
    apply alike_results_refl.
Qed.

Lemma diagonal_on_cell_bound `{physics : Physics} (op : NeoHookOperator)
    (mem : memory) (st st' : Vector * evaluators) (c : nat) :
  diagonal_on_cell op mem st c = Ok st' → bound_alike st.2 st'.2.
Proof.
  destruct st as [dst phis]. unfold diagonal_on_cell.
  intros (u & _ & Hrun)%bind_Ok.
  apply bind_Ok in Hrun as ([probes ldv] & Hloop & [= <-]).
  apply probe_loop_bound in Hloop as (Hc & Hs & Href). cbn in *.
  rewrite foldl_set_dof_value. repeat split; assumption.
Qed.

(** X19: the probing cell loop can be cut at any cell batch as well:
    [local_diagonal_cell] over the batches from [a] to [b] and then, on its
    result, over those from [b] to [c] gives what one run from [a] to [c]
    gives. *)
Theorem local_diagonal_cell_split `{physics : Physics} (op : NeoHookOperator)
    (mem : memory) (dst : Vector) (a b c : nat) :
  a ≤ b → b ≤ c →
  local_diagonal_cell op mem dst (a, c)
  = (mid ← local_diagonal_cell op mem dst (a, b);
     local_diagonal_cell op mem mid (b, c)).
Proof.
  intros Hab Hbc. unfold local_diagonal_cell.
  destruct (deref (data_current op)) as [cur|e]; [|reflexivity]. cbn.
  destruct (deref (data_reference op)) as [ref|e]; [|reflexivity]. cbn.
  rewrite (seq_split a b c Hab Hbc).
  rewrite (cell_loop_split (diagonal_on_cell op mem)).
  - destruct (for_each (diagonal_on_cell op mem) (seq a (b - a)) _)
      as [[dst1 phis1]|e]; reflexivity.
  - intros dst0 phis1 phis2 c0. apply diagonal_on_cell_forgets.
  - intros st c0 st'. apply diagonal_on_cell_bound.
Qed.

Lemma local_diagonal_cell_split_witness :
  let two_batches := bar 2 [1; 1]%float [0] [0] in
  let op := bound_operator two_batches two_batches in
  let mem := memory_with [0; 0.5; 1.5]%float in
  0 ≤ 1 ∧ 1 ≤ 2
  ∧ local_diagonal_cell (physics := line_physics) op mem [0; 0; 0]%float (0, 2)
    = (mid ← local_diagonal_cell (physics := line_physics) op mem
               [0; 0; 0]%float (0, 1);
       local_diagonal_cell (physics := line_physics) op mem mid (1, 2)).
Proof.
  intros two_batches op mem.
  assert (H01 : 0 ≤ 1) by lia. assert (H12 : 1 ≤ 2) by lia.
  split; [exact H01|]. split; [exact H12|].
  exact (local_diagonal_cell_split (physics := line_physics) op mem
           [0; 0; 0]%float 0 1 2 H01 H12).
Defined.

(** ** The Jacobi step in terms of the diagonal accessor *)

(** X20: after [compute_diagonal], for a source of the size of a non-empty
    diagonal, [precondition_Jacobi] returns, and its entry [i] is [src(i)]
    times the clamped reciprocal of what the diagonal accessor returns for
    row [i], times [omega]. *)
Theorem jacobi_step_from_el `{physics : Physics}
    (op op' : NeoHookOperator) (mem : memory) (dst src : Vector)
    (omega : number) :
  compute_diagonal op mem = Ok op' →
  src ≠ [] →
  (∃ diagonal, diagonal_entries op' = Some diagonal
               ∧ length src = length diagonal) →
  ∃ dst',
    precondition_Jacobi op' dst src omega = Ok dst'
    ∧ ∀ i x d, src !! i = Some x → el op' i i = Ok d →
        dst' !! i
        = Some (PrimFloat.mul
                  (PrimFloat.mul x
                     (if abs_gt d (PrimFloat.sqrt numeric_limits_epsilon)
                      then PrimFloat.div 1%float d else 1%float))
                  omega).
Proof.
  intros (cur & probed & fixed & _ & _ & _ & ->)%compute_diagonal_Ok
    Hne (diagonal & [= <-] & Hlen).
  destruct (precondition_Jacobi_entries
              (mark_diagonal_available (with_computed_diagonal fixed op))
              (invert_diagonal fixed) dst src omega eq_refl)
    as (dst' & Hrun & Hentries).
  - rewrite invert_diagonal_length, <- Hlen.
    destruct src; [contradiction|cbn; lia].
  - now rewrite invert_diagonal_length.
  - exists dst'. split; [exact Hrun|].
    intros i x d Hx Hel. unfold el in Hel.
    rewrite bool_decide_true in Hel by reflexivity. cbn in Hel.
    apply Vector_at_Ok in Hel.
    apply (Hentries i x _ Hx).
    now rewrite invert_diagonal_lookup, Hel.
Qed.

Lemma jacobi_step_from_el_witness :
  let op := bound_operator unit_bar unit_bar in
  let mem := memory_with [0; 0.5; 1.5]%float in
  compute_diagonal (physics := line_physics) op mem = Ok bar_with_diagonal
  ∧ el bar_with_diagonal 1 1 = Ok 4%float
  ∧ ∃ dst',
      precondition_Jacobi bar_with_diagonal [] [8; 8; 8]%float 3%float = Ok dst'
      ∧ dst' !! 1 = Some 6%float.
Proof.
  intros op mem.
  destruct (jacobi_step_from_el (physics := line_physics) op bar_with_diagonal
              mem [] [8; 8; 8]%float 3%float compute_diagonal_unit_bar)
    as (dst' & Hrun & Hentries).
  - discriminate.
  - now exists [1; 4; 2]%float.
  - split; [exact compute_diagonal_unit_bar|]. split; [reflexivity|].
    exists dst'. split; [exact Hrun|].
    rewrite (Hentries 1 8%float 4%float eq_refl eq_refl). reflexivity.
Defined.

(** ** The lanes of the rescale factor *)

(** X21: [JxW_scale] has the lanes of the reference weight; where the
    current weight is not above the threshold in any lane, as in a cell
    batch of zero weights, it is the reference weight itself. *)
Theorem JxW_scale_keeps_lanes `{physics : Physics}
    (JxW_reference JxW_current : VectorizedArray) :
  length (JxW_scale JxW_reference JxW_current) = length JxW_reference
  ∧ ((∀ i, i < n_array_elements →
        abs_gt (lane JxW_current i) JxW_threshold = false) →
     JxW_scale JxW_reference JxW_current = JxW_reference).
Proof.
  split.
  - unfold JxW_scale.
    rewrite (foldl_pointwise _ (update_at (rescale JxW_current)))
      by (intros; apply JxW_scale_lane_update_at).
    apply foldl_update_at_length.
  - intros Hbelow. apply list_eq. intros i. rewrite JxW_scale_lookup.
    destruct (decide (i < n_array_elements)) as [Hi|Hi]; [|reflexivity].
    unfold rescale. rewrite (Hbelow i Hi). now destruct (JxW_reference !! i).
Qed.

Lemma JxW_scale_keeps_lanes_witness :
  JxW_scale (physics := line_physics) [2; 3]%float [0; 0x1p-40]%float
  = [2; 3]%float.
Proof.
  apply (proj2 (JxW_scale_keeps_lanes (physics := line_physics)
                  [2; 3]%float [0; 0x1p-40]%float)).
  intros [|[|i]] Hi; [reflexivity|reflexivity|cbn in Hi; lia].
Defined.

(** ** The constrained entries of the operator action *)

(** Adding a number to zero gives back the very same number, except that a
    negative zero comes out as the positive zero. *)
Lemma zero_plus_same (s : number) :
  s ≠ neg_zero → PrimFloat.add 0%float s = s.
Proof.
  intros Hs. apply Prim2SF_inj. rewrite FloatAxioms.add_spec.
  change (Prim2SF 0) with (S754_zero false).
  destruct (Prim2SF s) as [b|b| |b m e] eqn:Hsf; try reflexivity.
  destruct b; [|reflexivity].
  exfalso. apply Hs. apply Prim2SF_inj. now rewrite Hsf.
Qed.

(** Under the scatter contract a cell leaves the constrained entries of the
    global vector as they were. *)
Lemma apply_on_cell_skips `{physics : Physics} (op : NeoHookOperator)
    (mem : memory) (src : Vector) (cur : MatrixFree)
    (st st' : Vector * evaluators) (c k : nat) :
  skips_constrained cur → k ∈ get_constrained_dofs cur →
  matrix_info (phi_current st.2) = cur →
  matrix_info (phi_current_s st.2) = cur →
  apply_on_cell op mem src st c = Ok st' →
  st'.1 !! k = st.1 !! k
  ∧ matrix_info (phi_current st'.2) = cur
  ∧ matrix_info (phi_current_s st'.2) = cur.
Proof.
  intros Hskip Hk Hc Hs Hrun.
  pose proof (apply_on_cell_bound _ _ _ _ _ _ Hrun) as (Hc' & Hs' & _).
  destruct st as [dst phis]. unfold apply_on_cell in Hrun.
  apply bind_Ok in Hrun as (u & _ & Hrun).
  apply bind_Ok in Hrun as (phis' & _ & [= <-]).
  cbn in *. rewrite Hc in Hc'. rewrite Hs in Hs'.
  split; [|now split].
  unfold distribute_local_to_global. rewrite Hc', Hs'.
  now rewrite !Hskip by exact Hk.
Qed.

Lemma cell_loop_skips `{physics : Physics} (op : NeoHookOperator)
    (mem : memory) (src : Vector) (cur : MatrixFree) (l : list nat)
    (st st' : Vector * evaluators) (k : nat) :
  skips_constrained cur → k ∈ get_constrained_dofs cur →
  matrix_info (phi_current st.2) = cur →
  matrix_info (phi_current_s st.2) = cur →
  for_each (apply_on_cell op mem src) l st = Ok st' →
  st'.1 !! k = st.1 !! k.
Proof.
  intros Hskip Hk. revert st. induction l as [|c l IH]; intros st Hc Hs Hrun.
  - now injection Hrun as <-.
  - cbn [for_each] in Hrun. apply bind_Ok in Hrun as (st1 & Hstep & Hrun).
    destruct (apply_on_cell_skips op mem src cur st st1 c k Hskip Hk Hc Hs
                Hstep) as (Hentry & Hc1 & Hs1).
    rewrite (IH st1 Hc1 Hs1 Hrun). exact Hentry.
Qed.

(** C2: for a context that keeps the scatter contract of deal.II and lists
    every constrained index once, and for every [src], after [vmult] the
    entry of [dst] at a constrained index [k] is [src(k)]: the cell loop
    leaves the zero of [dst = 0] there and the constraint step adds [src(k)]
    to it, which has the effect of overwriting the entry.  The entry is
    [0 + src(k)]: the very same double as [src(k)], but for a negative zero,
    which comes out as the positive zero; it always compares equal ([==]) to
    [src(k)] unless [src(k)] is not a number. *)
Theorem vmult_constrained_entry `{physics : Physics}
    (op : NeoHookOperator) (mem : memory) (dst src dst' : Vector)
    (cur : MatrixFree) (k : nat) :
  data_current op = Some cur →
  skips_constrained cur →
  NoDup (get_constrained_dofs cur) →
  k ∈ get_constrained_dofs cur →
  vmult op mem dst src = Ok dst' →
  ∃ s r,
    src !! k = Some s
    ∧ dst' !! k = Some r
    ∧ r = PrimFloat.add 0%float s
    ∧ (s ≠ neg_zero → r = s)
    ∧ (PrimFloat.is_nan s = false → PrimFloat.eqb r s = true).
Proof.
  intros Hcur Hskip Hnd Hk Hrun. unfold vmult, vmult_add in Hrun.
  rewrite Hcur in Hrun. cbn in Hrun.
  apply bind_Ok in Hrun as (ref & Href & Hrun).
  apply bind_Ok in Hrun as (_ & _ & Hrun).
  apply bind_Ok in Hrun as (after_cells & Hcells & Hrun).
  destruct (constraint_loop_listed _ _ _ _ _ Hrun Hnd Hk)
    as (v & s & Hv & Hs & Hres).
  assert (Hzero : v = 0%float).
  { unfold local_apply_cell in Hcells. rewrite Hcur in Hcells. cbn in Hcells.
    apply bind_Ok in Hcells as (ref' & _ & Hcells).
    apply bind_Ok in Hcells as (_ & _ & Hcells).
    apply bind_Ok in Hcells as (st & Hloop & [= <-]).
    pose proof (cell_loop_skips op mem src cur _
                  (Vector_assign_scalar dst 0%float, fresh_evaluators cur ref')
                  st k Hskip Hk eq_refl eq_refl Hloop) as Hentry.
    cbn in Hentry. rewrite Hv in Hentry. unfold Vector_assign_scalar in Hentry.
    symmetry in Hentry. now apply lookup_replicate_1 in Hentry as [-> _]. }
  subst v. exists s, (PrimFloat.add 0%float s).
  split; [exact Hs|]. split; [exact Hres|]. split; [reflexivity|].
  split; [apply zero_plus_same|apply zero_plus_eqb].
Qed.

(** The scatter of the bar never writes to a node it is told to skip. *)
Lemma bar_scatter_skips (skipped : list nat) (vals : list VectorizedArray)
    (dst : Vector) (k : nat) :
  k ∈ skipped → bar_scatter skipped vals dst !! k = dst !! k.
Proof.
  intros Hk. unfold bar_scatter. generalize bar_nodes. intros nodes.
  revert dst. induction nodes as [|[j l] nodes IH]; intros dst; [reflexivity|].
  cbn [foldl]. rewrite IH.
  destruct (bool_decide (l + j ∈ skipped)) eqn:Hskip; [reflexivity|].
  apply bool_decide_eq_false in Hskip.
  apply list_lookup_insert_ne. intros Heq. rewrite Heq in Hskip.
  contradiction.
Qed.

(** The unit bar keeps the scatter contract. *)
Lemma unit_bar_skips_constrained : skips_constrained unit_bar.
Proof. intros c vals dst k Hk. now apply bar_scatter_skips. Qed.

Lemma vmult_constrained_entry_witness :
  let op := bound_operator unit_bar unit_bar in
  let mem := memory_with [0; 0.5; 1.5]%float in
  let dst := [9; 9; 9]%float in
  let src := [5; 1; 2]%float in
  data_current op = Some unit_bar
  ∧ skips_constrained unit_bar
  ∧ NoDup (get_constrained_dofs unit_bar)
  ∧ 0 ∈ get_constrained_dofs unit_bar
  ∧ vmult (physics := line_physics) op mem dst src = Ok [5; 0; 2]%float
  ∧ ∃ s r,
      src !! 0 = Some s
      ∧ [5; 0; 2]%float !! 0 = Some r
      ∧ r = PrimFloat.add 0%float s
      ∧ (s ≠ neg_zero → r = s)
      ∧ (PrimFloat.is_nan s = false → PrimFloat.eqb r s = true).
Proof.
  intros op mem dst src.
  assert (Hnd : NoDup (get_constrained_dofs unit_bar))
    by (apply NoDup_singleton).
  assert (Hk : 0 ∈ get_constrained_dofs unit_bar) by (apply list_elem_of_here).
  assert (Hrun : vmult (physics := line_physics) op mem dst src
                 = Ok [5; 0; 2]%float) by (vm_compute; reflexivity).
  split; [reflexivity|]. split; [exact unit_bar_skips_constrained|].
  split; [exact Hnd|]. split; [exact Hk|]. split; [exact Hrun|].
  exact (vmult_constrained_entry (physics := line_physics) op mem dst src
           [5; 0; 2]%float unit_bar 0 eq_refl unit_bar_skips_constrained
           Hnd Hk Hrun).
Defined.

(** The one double that does not come back bit for bit: a negative zero in
    [src] at a constrained index gives the positive zero, which compares
    equal to it. *)
Lemma vmult_negative_zero :
  vmult (physics := line_physics) (bound_operator unit_bar unit_bar)
    (memory_with [0; 0.5; 1.5]%float) [9; 9; 9]%float [neg_zero; 1; 2]%float
  = Ok [0; 0; 2]%float
  ∧ PrimFloat.eqb 0%float neg_zero = true.
Proof. split; vm_compute; reflexivity. Qed.
